(** * LIEF, MachO::Binary: the object model, the address resolver and the
      patch subsystem of [src/MachO/Binary.cpp], as a shallow embedding.

    Conventions.
    - [uint64_t], [uint32_t] and [size_t] (LP64) are [Z] with the wrap-around
      of every addition and subtraction written out ([add64], [sub64]).
    - [uint8_t] is a [Z] below 256; a [std::vector<uint8_t>] is a [list Z].
    - The binary owns its commands through [commands_]; a reference
      [SegmentCommand&] or [LoadCommand&] handed out by a method is the index
      of the object in [commands_] together with the value found there.
    - A method ends in one of three ways: it returns, it throws, or it runs
      into behaviour the C++ standard leaves undefined (a write or read
      outside a buffer, [back()] of an empty vector). *)

From Stdlib Require Import Sorted.
From stdpp Require Import base numbers list strings.

Local Open Scope Z_scope.

(** ** Machine integers *)

Definition wrap64 (z : Z) : Z := z mod 2 ^ 64.
Definition add64 (a b : Z) : Z := wrap64 (a + b).
Definition sub64 (a b : Z) : Z := wrap64 (a - b).

(** ** Entities *)

Module Header.
(** Modelled from the spec: the class [Header] is declared outside
    Binary.cpp.  It carries the architecture, the file type, the counters of
    the load-command table ([nb_cmds], [sizeof_cmds], the ones the
    commented-out lines of [insert_command] name) and a flags bitset. *)
Record t : Type := mk {
  cpu_type : Z;
  file_type : Z;
  nb_cmds : Z;
  sizeof_cmds : Z;
  flags : Z
}.

(** Modelled from the spec: [Header::has_flag] is defined outside
    Binary.cpp; on a bitset it tells whether bits of the flag are set. *)
Definition has_flag (h : t) (flag : Z) : bool :=
  0 <? Z.land (flags h) flag.

(** Modelled from the spec: [Header::remove_flag] is defined outside
    Binary.cpp; on a bitset it clears the bits of the flag, and it is a
    direct field write with no effect on anything else. *)
Definition remove_flag (h : t) (flag : Z) : t :=
  {| cpu_type := cpu_type h; file_type := file_type h;
     nb_cmds := nb_cmds h; sizeof_cmds := sizeof_cmds h;
     flags := Z.land (flags h) (Z.lnot flag) |}.
End Header.

(** Modelled from the spec: the enumerator [HEADER_FLAGS::MH_PIE] is declared
    outside Binary.cpp; it is the position-independence bit of the Mach-O
    header flags. *)
Definition MH_PIE : Z := 0x200000.

Module MachOSection.
(** Modelled from the spec: the class [Section] is declared outside
    Binary.cpp; the fields are the spec's and the accessors Binary.cpp
    calls. *)
Record t : Type := mk {
  name : string;
  offset : Z;
  size : Z;
  virtual_address : Z
}.
End MachOSection.

Module SegmentCommand.
(** Modelled from the spec: the class [SegmentCommand] is declared outside
    Binary.cpp; the fields are the spec's and the accessors Binary.cpp
    calls. *)
Record t : Type := mk {
  name : string;
  virtual_address : Z;
  virtual_size : Z;
  file_offset : Z;
  file_size : Z;
  content : list Z;
  sections : list MachOSection.t
}.

(** Modelled from the spec: the setter
    [content(const std::vector<uint8_t>&)] is defined outside Binary.cpp; it
    replaces the buffer, every other field stays. *)
Definition set_content (s : t) (data : list Z) : t :=
  {| name := name s;
     virtual_address := virtual_address s;
     virtual_size := virtual_size s;
     file_offset := file_offset s;
     file_size := file_size s;
     content := data;
     sections := sections s |}.
End SegmentCommand.

Module DylibCommand.
(** Modelled from the spec: declared outside Binary.cpp; a library name and
    version metadata. *)
Record t : Type := mk { name : string; current_version : Z }.
End DylibCommand.

Module DylinkerCommand.
(** Modelled from the spec: declared outside Binary.cpp; the path of the
    dynamic loader. *)
Record t : Type := mk { name : string }.
End DylinkerCommand.

Module MainCommand.
(** Modelled from the spec: declared outside Binary.cpp; [entrypoint()] of a
    [MainCommand] is the entry point relative to the image base. *)
Record t : Type := mk { entrypoint : Z }.
End MainCommand.

Module Symbol.
(** Modelled from the spec: declared outside Binary.cpp; a name and the
    flag that says whether the symbol is external. *)
Record t : Type := mk { name : string; is_external : bool }.
End Symbol.

(** [LOAD_COMMAND_TYPES], as far as Binary.cpp tells the kinds apart.
    [LC_SEGMENT] stands for both widths of the segment command, [LC_LOAD_DYLIB]
    for the dylib family; [LC_OTHER] carries the raw tag of any other kind. *)
Inductive LOAD_COMMAND_TYPES : Type :=
| LC_SEGMENT
| LC_LOAD_DYLIB
| LC_LOAD_DYLINKER
| LC_MAIN
| LC_OTHER (raw : Z).

(** The class hierarchy under [LoadCommand] as a tagged union. *)
Inductive LoadCommand : Type :=
| CmdSegment (s : SegmentCommand.t)
| CmdDylib (d : DylibCommand.t)
| CmdDylinker (d : DylinkerCommand.t)
| CmdMain (m : MainCommand.t)
| CmdOther (raw : Z).

(** [LoadCommand::command()]: the tag is fixed by the dynamic type. *)
Definition command (c : LoadCommand) : LOAD_COMMAND_TYPES :=
  match c with
  | CmdSegment _ => LC_SEGMENT
  | CmdDylib _ => LC_LOAD_DYLIB
  | CmdDylinker _ => LC_LOAD_DYLINKER
  | CmdMain _ => LC_MAIN
  | CmdOther raw => LC_OTHER raw
  end.

Definition is_LC_MAIN (t : LOAD_COMMAND_TYPES) : bool :=
  match t with LC_MAIN => true | _ => false end.

Record Binary : Type := mkBinary {
  is64_ : bool;
  header_ : Header.t;
  commands_ : list LoadCommand;
  symbols_ : list Symbol.t
}.

(** ** Outcomes *)

(** [not_found] and [conversion_error] are LIEF's exceptions (the spec's
    NotFound and ConversionError); [runtime_error] is [std::runtime_error],
    which the scalar patch throws on a bad width (the spec's
    InvalidArgument). *)
Inductive exception : Type :=
| not_found
| conversion_error
| runtime_error.

Inductive result (A : Type) : Type :=
| Ok (a : A)
| Throw (e : exception)
| Undefined.
Arguments Ok {A} a.
Arguments Throw {A} e.
Arguments Undefined {A}.

(** A non-const method: it runs on the binary and leaves a binary behind,
    also when it throws. *)
Definition M (A : Type) : Type := Binary -> result A * Binary.

Definition ret {A} (a : A) : M A := fun b => (Ok a, b).
Definition throw {A} (e : exception) : M A := fun b => (Throw e, b).
Definition bind {A B} (m : M A) (f : A -> M B) : M B :=
  fun b =>
    match m b with
    | (Ok a, b') => f a b'
    | (Throw e, b') => (Throw e, b')
    | (Undefined, b') => (Undefined, b')
    end.
(** A const method called from a non-const one. *)
Definition call {A} (f : Binary -> result A) : M A := fun b => (f b, b).

Notation "'let*' x := m 'in' k" := (bind m (fun x => k))
  (at level 10, x pattern, m at level 100, k at level 200).

(** ** Generic helpers *)

(** [std::find_if]: the first element that satisfies the predicate. *)
Fixpoint find_if {A} (p : A -> bool) (l : list A) : option A :=
  match l with
  | [] => None
  | x :: tl => if p x then Some x else find_if p tl
  end.

(** A reference into [commands_]: the position and the object there. *)
Abbreviation ref A := (nat * A)%type (only parsing).

(** ** Views *)

Fixpoint segments_from (i : nat) (cmds : list LoadCommand)
  : list (ref SegmentCommand.t) :=
  match cmds with
  | [] => []
  | CmdSegment s :: tl => (i, s) :: segments_from (S i) tl
  | _ :: tl => segments_from (S i) tl
  end.

(** [Binary::segments]: the segment commands, in command order. *)
Definition segments (b : Binary) : list (ref SegmentCommand.t) :=
  segments_from 0 (commands_ b).

Fixpoint libraries_from (i : nat) (cmds : list LoadCommand)
  : list (ref DylibCommand.t) :=
  match cmds with
  | [] => []
  | CmdDylib d :: tl => (i, d) :: libraries_from (S i) tl
  | _ :: tl => libraries_from (S i) tl
  end.

Definition libraries (b : Binary) : list (ref DylibCommand.t) :=
  libraries_from 0 (commands_ b).

(** [Binary::sections]: the sections of every segment, concatenated. *)
Definition sections (b : Binary) : list MachOSection.t :=
  flat_map (fun r => SegmentCommand.sections (snd r)) (segments b).

(** ** Symbols *)

Definition is_exported (symbol : Symbol.t) : bool :=
  negb (Symbol.is_external symbol).

Definition is_imported (symbol : Symbol.t) : bool :=
  Symbol.is_external symbol.

(** The filter iterators walk [symbols_] front to back. *)
Definition get_exported_symbols (b : Binary) : list Symbol.t :=
  List.filter is_exported (symbols_ b).

Definition get_imported_symbols (b : Binary) : list Symbol.t :=
  List.filter is_imported (symbols_ b).

(** ** Address resolver *)

(** The lambda of [segment_from_virtual_address]. *)
Definition covers_virtual_address (virtual_address : Z)
    (segment : SegmentCommand.t) : bool :=
  (SegmentCommand.virtual_address segment <=? virtual_address) &&
  (virtual_address <?
     add64 (SegmentCommand.virtual_address segment)
           (SegmentCommand.virtual_size segment)).

Definition segment_from_virtual_address (virtual_address : Z) (b : Binary)
  : result (ref SegmentCommand.t) :=
  match find_if (fun r => covers_virtual_address virtual_address (snd r))
                (segments b) with
  | None => Throw not_found
  | Some r => Ok r
  end.

(** The lambda of [segment_from_offset]. *)
Definition covers_offset (offset : Z) (segment : SegmentCommand.t) : bool :=
  (SegmentCommand.file_offset segment <=? offset) &&
  (offset <=?
     add64 (SegmentCommand.file_offset segment)
           (SegmentCommand.file_size segment)).

Definition segment_from_offset (offset : Z) (b : Binary)
  : result (ref SegmentCommand.t) :=
  match find_if (fun r => covers_offset offset (snd r)) (segments b) with
  | None => Throw not_found
  | Some r => Ok r
  end.

(** The lambda of [section_from_offset]. *)
Definition section_covers_offset (offset : Z) (section : MachOSection.t)
  : bool :=
  (MachOSection.offset section <=? offset) &&
  (offset <? add64 (MachOSection.offset section) (MachOSection.size section)).

Definition section_from_offset (offset : Z) (b : Binary)
  : result MachOSection.t :=
  match find_if (section_covers_offset offset) (sections b) with
  | None => Throw not_found
  | Some s => Ok s
  end.

(** The lambda of [virtual_address_to_offset]; note the [>=]. *)
Definition reaches_virtual_address (virtualAddress : Z)
    (segment : SegmentCommand.t) : bool :=
  (SegmentCommand.virtual_address segment <=? virtualAddress) &&
  (virtualAddress <=?
     add64 (SegmentCommand.virtual_address segment)
           (SegmentCommand.virtual_size segment)).

Definition virtual_address_to_offset (virtualAddress : Z) (b : Binary)
  : result Z :=
  match find_if (fun r => reaches_virtual_address virtualAddress (snd r))
                (segments b) with
  | None => Throw conversion_error
  | Some (_, segment) =>
      let baseAddress :=
        sub64 (SegmentCommand.virtual_address segment)
              (SegmentCommand.file_offset segment) in
      let offset := sub64 virtualAddress baseAddress in
      Ok offset
  end.

Definition imagebase (b : Binary) : result Z :=
  match find_if (fun r => String.eqb (SegmentCommand.name (snd r)) "__TEXT")
                (segments b) with
  | None => Throw not_found
  | Some (_, segment) => Ok (SegmentCommand.virtual_address segment)
  end.

(** The [static_cast] to [MainCommand] relies on the tag: a command tagged
    LC_MAIN of another dynamic type would be undefined, and [command] rules
    it out. *)
Definition entrypoint (b : Binary) : result Z :=
  match find_if (fun c => is_LC_MAIN (command c)) (commands_ b) with
  | None => Throw not_found
  | Some (CmdMain main_command) =>
      match imagebase b with
      | Ok base => Ok (add64 base (MainCommand.entrypoint main_command))
      | Throw e => Throw e
      | Undefined => Undefined
      end
  | Some _ => Undefined
  end.

(** ** Patch subsystem *)

(** The buffer with the bytes [src] laid over it from position [offset]. *)
Definition overwrite (content : list Z) (offset : nat) (src : list Z)
  : list Z :=
  take offset content ++ src ++ drop (offset + length src)%nat content.

(** [std::copy(first, last, content.data() + offset)] on the local copy of
    the buffer.  An empty range copies nothing and touches no byte, wherever
    the destination points: the buffer comes back as it was ([overwrite] with
    no bytes is the identity).  A non-empty range has to end inside the
    buffer; the source does not check it, and past the end the write is
    undefined. *)
Definition copy_into (src : list Z) (content : list Z) (offset : Z)
  : result (list Z) :=
  if (Z.of_nat (length src) =? 0)
     || (offset + Z.of_nat (length src) <=? Z.of_nat (length content)) then
    Ok (overwrite content (Z.to_nat offset) src)
  else Undefined.

(** The binary with its command sequence replaced. *)
Definition with_commands (b : Binary) (cmds : list LoadCommand) : Binary :=
  {| is64_ := is64_ b; header_ := header_ b;
     commands_ := cmds; symbols_ := symbols_ b |}.

(** [segment_topatch.content(content)]: the setter acts on the object the
    reference points to, inside [commands_]. *)
Definition set_segment_content (i : nat) (data : list Z) : M unit :=
  fun b =>
    match commands_ b !! i with
    | Some (CmdSegment s) =>
        (Ok tt,
         with_commands b
           (<[i := CmdSegment (SegmentCommand.set_content s data)]>
              (commands_ b)))
    | _ => (Undefined, b)
    end.

(** [patch_address(uint64_t, const std::vector<uint8_t>&)] *)
Definition patch_address (address : Z) (patch_value : list Z) : M unit :=
  let* segment_topatch := call (segment_from_virtual_address address) in
  let offset :=
    sub64 address (SegmentCommand.virtual_address (snd segment_topatch)) in
  let content := SegmentCommand.content (snd segment_topatch) in
  let* content := call (fun _ => copy_into patch_value content offset) in
  set_segment_content (fst segment_topatch) content.

(** The object representation of a [uint64_t], first [size] bytes, on a
    little-endian host: byte [k] is bits [8k .. 8k+7]. *)
Definition byte_of (value : Z) (k : nat) : Z :=
  Z.land (Z.shiftr value (8 * Z.of_nat k)) 255.

Definition object_bytes (value : Z) (size : Z) : list Z :=
  map (byte_of value) (seq 0 (Z.to_nat size)).

(** [sizeof(patch_value)] for a [uint64_t]. *)
Definition sizeof_uint64 : Z := 8.

(** [patch_address(uint64_t, uint64_t, size_t)] *)
Definition patch_address_value (address patch_value size : Z) : M unit :=
  if sizeof_uint64 <? size then throw runtime_error
  else
    let* segment_topatch := call (segment_from_virtual_address address) in
    let offset :=
      sub64 address (SegmentCommand.virtual_address (snd segment_topatch)) in
    let content := SegmentCommand.content (snd segment_topatch) in
    let* content :=
      call (fun _ => copy_into (object_bytes patch_value size) content offset)
    in
    set_segment_content (fst segment_topatch) content.

(** The statements the two overloads have in common (everything after the
    width check of the scalar one), named for the proofs. *)
Definition write_segment (address : Z) (src : list Z) : M unit :=
  let* segment_topatch := call (segment_from_virtual_address address) in
  let offset :=
    sub64 address (SegmentCommand.virtual_address (snd segment_topatch)) in
  let content := SegmentCommand.content (snd segment_topatch) in
  let* content := call (fun _ => copy_into src content offset) in
  set_segment_content (fst segment_topatch) content.

(** The vector built from the pointer pair [{data + first, data + last}]:
    both pointers have to stay inside the buffer (one past its end
    included) and be in order. *)
Definition vector_from_range (content : list Z) (first last : Z)
  : result (list Z) :=
  if (first <=? last) && (last <=? Z.of_nat (length content)) then
    Ok (take (Z.to_nat (last - first)) (drop (Z.to_nat first) content))
  else Undefined.

Definition get_content_from_virtual_address (virtual_address size : Z)
    (b : Binary) : result (list Z) :=
  match segment_from_virtual_address virtual_address b with
  | Ok (_, segment) =>
      let content := SegmentCommand.content segment in
      let content_size := Z.of_nat (length content) in
      let offset :=
        sub64 virtual_address (SegmentCommand.virtual_address segment) in
      let checked_size :=
        if content_size <? add64 offset size then
          sub64 size (sub64 (add64 offset size) content_size)
        else size in
      vector_from_range content offset (offset + checked_size)
  | Throw e => Throw e
  | Undefined => Undefined
  end.

(** ** Commands and header *)

(** [insert_command]: everything but the log line and the [return] is
    commented out in the source.  [back()] of an empty vector is undefined. *)
Definition insert_command (command : LoadCommand) : M (ref LoadCommand) :=
  fun b =>
    match last (commands_ b) with
    | Some c => (Ok (pred (length (commands_ b)), c), b)
    | None => (Undefined, b)
    end.

Definition set_header (h : Header.t) : M unit :=
  fun b =>
    (Ok tt,
     {| is64_ := is64_ b; header_ := h;
        commands_ := commands_ b; symbols_ := symbols_ b |}).

Definition disable_pie : M bool :=
  fun b =>
    if Header.has_flag (header_ b) MH_PIE then
      (let* _ := set_header (Header.remove_flag (header_ b) MH_PIE) in
       ret true) b
    else ret false b.

(** ** Loader and the projections for the format-independent layer *)

Definition is_LC_LOAD_DYLINKER (t : LOAD_COMMAND_TYPES) : bool :=
  match t with LC_LOAD_DYLINKER => true | _ => false end.

(** [get_loader].  The [dynamic_cast] to [DylinkerCommand] of a command of
    another class would be a null pointer, and reading its name undefined;
    [command] rules it out. *)
Definition get_loader (b : Binary) : result string :=
  match find_if (fun c => is_LC_LOAD_DYLINKER (command c)) (commands_ b) with
  | None => Throw not_found
  | Some (CmdDylinker dylinkerCommand) =>
      Ok (DylinkerCommand.name dylinkerCommand)
  | Some _ => Undefined
  end.

(** [header()], [commands()], [symbols()]: the owned collections. *)
Definition header (b : Binary) : Header.t := header_ b.
Definition commands (b : Binary) : list LoadCommand := commands_ b.
Definition symbols (b : Binary) : list Symbol.t := symbols_ b.

Definition get_abstract_sections (b : Binary) : list MachOSection.t :=
  sections b.




Definition get_abstract_imported_libraries (b : Binary) : list string :=
  map (fun lib => DylibCommand.name (snd lib)) (libraries b).

Module AbstractHeader.
(** Modelled from the spec: [LIEF::Header], the format-independent header
    summary (architecture, modes, entry point), is declared outside
    Binary.cpp. *)
Record t (ARCHITECTURES MODES : Type) : Type := mk {
  architecture : ARCHITECTURES;
  modes : MODES;
  entrypoint : Z
}.
Arguments mk {ARCHITECTURES MODES} _ _ _.
Arguments architecture {ARCHITECTURES MODES} _.
Arguments modes {ARCHITECTURES MODES} _.
Arguments entrypoint {ARCHITECTURES MODES} _.
End AbstractHeader.

Section abstract_header.
Context {ARCHITECTURES MODES : Type}.
(** [Header::abstract_architecture], defined outside Binary.cpp: the pair of
    the architecture and the set of modes. *)
Variable abstract_architecture : Header.t -> ARCHITECTURES * MODES.

End abstract_header.

(** An entry of the segment view after the buffer of the segment at index
    [i] was replaced by [data]. *)
Definition with_content_at (i : nat) (data : list Z)
    (r : nat * SegmentCommand.t) : nat * SegmentCommand.t :=
  if decide (fst r = i)
  then (fst r, SegmentCommand.set_content (snd r) data)
  else r.

(** The number a byte string denotes when read low byte first. *)
Fixpoint little_endian (bytes : list Z) : Z :=
  match bytes with
  | [] => 0
  | byte :: tl => byte + 256 * little_endian tl
  end.

(** A second sample: a dynamic library image without LC_MAIN. *)
Definition sample_dylib : Binary :=
  {| is64_ := true;
     header_ := {| Header.cpu_type := 0x1000007; Header.file_type := 6;
                   Header.nb_cmds := 4; Header.sizeof_cmds := 0x1c0;
                   Header.flags := 0x85 |};
     commands_ :=
       [CmdSegment
          {| SegmentCommand.name := "__TEXT";
             SegmentCommand.virtual_address := 0;
             SegmentCommand.virtual_size := 0x1000;
             SegmentCommand.file_offset := 0;
             SegmentCommand.file_size := 0x1000;
             SegmentCommand.content := repeat 0xcc 24;
             SegmentCommand.sections :=
               [{| MachOSection.name := "__text";
                   MachOSection.offset := 0x8;
                   MachOSection.size := 0x8;
                   MachOSection.virtual_address := 0x8 |};
                {| MachOSection.name := "__const";
                   MachOSection.offset := 0x10;
                   MachOSection.size := 0x8;
                   MachOSection.virtual_address := 0x10 |}] |};
        CmdDylib {| DylibCommand.name := "/usr/lib/libSystem.B.dylib";
                    DylibCommand.current_version := 0x4ca0a01 |};
        CmdDylinker {| DylinkerCommand.name := "/usr/lib/dyld" |};
        CmdDylib {| DylibCommand.name := "/usr/lib/libc++.1.dylib";
                    DylibCommand.current_version := 0x780000 |}];
     symbols_ :=
       [{| Symbol.name := "_malloc"; Symbol.is_external := true |};
        {| Symbol.name := "_init"; Symbol.is_external := false |};
        {| Symbol.name := "_free"; Symbol.is_external := true |}] |}.

(** ** The spec's wording, for comparison *)

(** The translation as the spec words it: resolve the owning segment (the
    half-open test of [segment_from_virtual_address]), subtract its base;
    a conversion error when no segment owns the address. *)
Definition virtual_address_to_offset_spec (vaddr : Z) (b : Binary)
  : result Z :=
  match segment_from_virtual_address vaddr b with
  | Ok (_, segment) =>
      Ok (sub64 vaddr
            (sub64 (SegmentCommand.virtual_address segment)
                   (SegmentCommand.file_offset segment)))
  | _ => Throw conversion_error
  end.

(** A [result], mapped. *)
Definition result_map {A B} (f : A -> B) (r : result A) : result B :=
  match r with
  | Ok a => Ok (f a)
  | Throw e => Throw e
  | Undefined => Undefined
  end.

(** ** Sample images used by the examples *)

Definition sample_header : Header.t :=
  {| Header.cpu_type := 0x1000007; Header.file_type := 2;
     Header.nb_cmds := 6; Header.sizeof_cmds := 0x2a8;
     Header.flags := 0x200085 |}.

Definition pagezero : SegmentCommand.t :=
  {| SegmentCommand.name := "__PAGEZERO";
     SegmentCommand.virtual_address := 0;
     SegmentCommand.virtual_size := 0x100000000;
     SegmentCommand.file_offset := 0;
     SegmentCommand.file_size := 0;
     SegmentCommand.content := [];
     SegmentCommand.sections := [] |}.

Definition text_segment : SegmentCommand.t :=
  {| SegmentCommand.name := "__TEXT";
     SegmentCommand.virtual_address := 0x100000000;
     SegmentCommand.virtual_size := 0x2000;
     SegmentCommand.file_offset := 0;
     SegmentCommand.file_size := 0x20;
     SegmentCommand.content := repeat 0x90 32;
     SegmentCommand.sections := [] |}.

(** A data segment with a zero-filled tail: it is larger in memory than in
    the file. *)
Definition data_segment : SegmentCommand.t :=
  {| SegmentCommand.name := "__DATA";
     SegmentCommand.virtual_address := 0x100002000;
     SegmentCommand.virtual_size := 0x2000;
     SegmentCommand.file_offset := 0x2000;
     SegmentCommand.file_size := 0x1000;
     SegmentCommand.content := repeat 0 16;
     SegmentCommand.sections := [] |}.

Definition linkedit : SegmentCommand.t :=
  {| SegmentCommand.name := "__LINKEDIT";
     SegmentCommand.virtual_address := 0x100004000;
     SegmentCommand.virtual_size := 0x1000;
     SegmentCommand.file_offset := 0x3000;
     SegmentCommand.file_size := 0x100;
     SegmentCommand.content := repeat 7 8;
     SegmentCommand.sections := [] |}.

Definition sample_main : MainCommand.t :=
  {| MainCommand.entrypoint := 0xf30 |}.

Definition sample : Binary :=
  {| is64_ := true;
     header_ := sample_header;
     commands_ :=
       [CmdSegment pagezero; CmdSegment text_segment; CmdOther 0x22;
        CmdSegment data_segment; CmdMain sample_main; CmdSegment linkedit];
     symbols_ :=
       [{| Symbol.name := "_main"; Symbol.is_external := false |};
        {| Symbol.name := "_printf"; Symbol.is_external := true |};
        {| Symbol.name := "_helper"; Symbol.is_external := false |}] |}.

(** [sample] without its segments named ["__TEXT"], resp. without LC_MAIN. *)
Definition sample_no_text : Binary :=
  {| is64_ := true; header_ := sample_header;
     commands_ := [CmdSegment pagezero; CmdMain sample_main;
                   CmdSegment data_segment];
     symbols_ := [] |}.

Definition sample_no_main : Binary :=
  {| is64_ := true; header_ := sample_header;
     commands_ := [CmdSegment pagezero; CmdSegment text_segment;
                   CmdDylinker {| DylinkerCommand.name := "/usr/lib/dyld" |}];
     symbols_ := [] |}.

(** [sample] with MH_PIE cleared. *)
Definition sample_no_pie : Binary :=
  {| is64_ := true;
     header_ := {| Header.cpu_type := 0x1000007; Header.file_type := 2;
                   Header.nb_cmds := 6; Header.sizeof_cmds := 0x2a8;
                   Header.flags := 0x85 |};
     commands_ := commands_ sample;
     symbols_ := symbols_ sample |}.

(** * Properties *)

(** ** [find_if] *)

Section find_if_facts.
Context {A : Type} (p : A -> bool).

Lemma find_if_Some_split (l : list A) (x : A) :
  find_if p l = Some x <->
  exists pre post,
    l = pre ++ x :: post /\ Forall (fun y => p y = false) pre /\ p x = true.
Proof.
  split.
  - induction l as [|y tl IH]; simpl; [discriminate|].
    destruct (p y) eqn:Hy.
    + intros [= ->]. exists [], tl. auto.
    + intros H. destruct (IH H) as (pre & post & -> & Hpre & Hx).
      exists (y :: pre), post. auto.
  - intros (pre & post & -> & Hpre & Hx).
    induction Hpre as [|y pre Hy _ IH]; simpl.
    + now rewrite Hx.
    + now rewrite Hy.
Qed.

Lemma find_if_None_all (l : list A) :
  find_if p l = None <-> Forall (fun y => p y = false) l.
Proof.
  induction l as [|y tl IH]; simpl.
  - split; auto.
  - destruct (p y) eqn:Hy.
    + split; [discriminate|]. intros H. inversion H; congruence.
    + rewrite IH. split; [auto|]. intros H. now inversion H.
Qed.

Lemma find_if_elem (l : list A) (x : A) :
  x ∈ l -> p x = true -> exists y, find_if p l = Some y.
Proof.
  intros Hin Hx. destruct (find_if p l) eqn:E; [eauto|].
  apply find_if_None_all in E. rewrite Forall_forall in E.
  specialize (E x Hin). congruence.
Qed.
End find_if_facts.

(** ** The segment view points into [commands_] *)

Lemma segments_from_lookup (cmds : list LoadCommand) (k j : nat)
    (s : SegmentCommand.t) :
  (j, s) ∈ segments_from k cmds <->
  (k <= j)%nat /\ cmds !! (j - k)%nat = Some (CmdSegment s).
Proof.
  revert k. induction cmds as [|c tl IH]; intros k; simpl.
  - rewrite elem_of_nil. split; [tauto|]. intros [_ H]. discriminate.
  - assert (Htl : (j, s) ∈ segments_from (S k) tl <->
                  (k < j)%nat /\ (c :: tl) !! (j - k)%nat = Some (CmdSegment s)).
    { rewrite IH. split.
      - intros [Hle H]. split; [lia|].
        replace (j - k)%nat with (S (j - S k)) by lia. exact H.
      - intros [Hlt H]. split; [lia|].
        replace (j - k)%nat with (S (j - S k)) in H by lia. exact H. }
    destruct c as [s0| | | |];
      try (rewrite Htl; split; [intros [? ?]; split; [lia|auto]|];
           intros [Hle H]; split; [|auto];
           destruct (decide (j = k)) as [->|]; [|lia];
           rewrite Nat.sub_diag in H; discriminate).
    rewrite elem_of_cons, Htl. split.
    + intros [[= -> ->]|[Hlt H]].
      * split; [lia|]. now rewrite Nat.sub_diag.
      * split; [lia|auto].
    + intros [Hle H]. destruct (decide (j = k)) as [->|].
      * rewrite Nat.sub_diag in H. injection H as ->. now left.
      * right. split; [lia|auto].
Qed.

(** Every entry of [segments b] is the segment command stored at its index,
    and every stored segment command is in the view. *)
Lemma elem_of_segments (b : Binary) (i : nat) (s : SegmentCommand.t) :
  (i, s) ∈ segments b <-> commands_ b !! i = Some (CmdSegment s).
Proof.
  unfold segments. rewrite segments_from_lookup, Nat.sub_0_r.
  split; [tauto|]. intros H. split; [lia|auto].
Qed.

(** The view is in command order: the indices into [commands_] go up. *)
Lemma segments_from_sorted (cmds : list LoadCommand) (k : nat) :
  StronglySorted (fun r1 r2 : nat * SegmentCommand.t => (fst r1 < fst r2)%nat)
    (segments_from k cmds).
Proof.
  revert k. induction cmds as [|c tl IH]; intros k; simpl; [constructor|].
  destruct c; try apply IH.
  constructor; [apply IH|].
  apply Forall_forall. intros [j s'] Hin.
  apply segments_from_lookup in Hin as [Hle _]. simpl. lia.
Qed.

Lemma segments_command_order (b : Binary) pre r post :
  segments b = pre ++ r :: post ->
  Forall (fun r' => (fst r' < fst r)%nat) pre /\
  Forall (fun r' => (fst r < fst r')%nat) post.
Proof.
  intros Heq. pose proof (segments_from_sorted (commands_ b) 0) as Hs.
  fold (segments b) in Hs. rewrite Heq in Hs. clear Heq.
  induction pre as [|x pre IH]; simpl in Hs.
  - split; [constructor|]. now inversion Hs.
  - inversion Hs as [|? ? Hs' Hall]; subst.
    destruct (IH Hs') as [H1 H2]. split; [|exact H2].
    constructor; [|exact H1].
    rewrite Forall_app, Forall_cons in Hall. tauto.
Qed.

(** ** Range predicates, read as inequalities *)

Lemma covers_virtual_address_iff (a : Z) (s : SegmentCommand.t) :
  covers_virtual_address a s = true <->
  SegmentCommand.virtual_address s <= a <
  add64 (SegmentCommand.virtual_address s) (SegmentCommand.virtual_size s).
Proof. unfold covers_virtual_address. rewrite andb_true_iff. lia. Qed.

Lemma covers_offset_iff (o : Z) (s : SegmentCommand.t) :
  covers_offset o s = true <->
  SegmentCommand.file_offset s <= o <=
  add64 (SegmentCommand.file_offset s) (SegmentCommand.file_size s).
Proof. unfold covers_offset. rewrite andb_true_iff. lia. Qed.

Lemma add64_small (a b : Z) : 0 <= a + b < 2 ^ 64 -> add64 a b = a + b.
Proof. intros H. unfold add64, wrap64. now apply Z.mod_small. Qed.

Lemma sub64_small (a b : Z) : 0 <= a - b < 2 ^ 64 -> sub64 a b = a - b.
Proof. intros H. unfold sub64, wrap64. now apply Z.mod_small. Qed.

(** For a segment whose end does not wrap around, the predicate is the
    half-open interval of the integers. *)
Lemma covers_virtual_address_no_wrap (a : Z) (s : SegmentCommand.t) :
  0 <= SegmentCommand.virtual_address s + SegmentCommand.virtual_size s
    < 2 ^ 64 ->
  covers_virtual_address a s = true <->
  SegmentCommand.virtual_address s <= a <
  SegmentCommand.virtual_address s + SegmentCommand.virtual_size s.
Proof. intros H. now rewrite covers_virtual_address_iff, add64_small. Qed.

(** ** Address resolver *)

(** C2. For a segment SEG of the binary and an address [a] inside its
    half-open range, [segment_from_virtual_address a] returns the first
    segment, in command order, whose range covers [a]; that segment is SEG
    when no other segment covers [a].  For an address that no segment covers
    it throws [not_found].  The range test is the one of the source, with the
    64-bit sum. *)
Theorem segment_from_virtual_address_first (b : Binary) (a : Z) :
  (forall SEG : ref SegmentCommand.t,
     SEG ∈ segments b ->
     covers_virtual_address a (snd SEG) = true ->
     exists pre s post,
       segments b = pre ++ s :: post /\
       Forall (fun r => covers_virtual_address a (snd r) = false) pre /\
       covers_virtual_address a (snd s) = true /\
       segment_from_virtual_address a b = Ok s /\
       ((forall r, r ∈ segments b ->
                   covers_virtual_address a (snd r) = true -> r = SEG) ->
        s = SEG)) /\
  ((forall r, r ∈ segments b -> covers_virtual_address a (snd r) = false) ->
   segment_from_virtual_address a b = Throw not_found).
Proof.
  unfold segment_from_virtual_address. split.
  - intros SEG Hin Hcov.
    destruct (find_if_elem (fun r => covers_virtual_address a (snd r))
                _ _ Hin Hcov) as [s Hs].
    rewrite Hs.
    destruct (proj1 (find_if_Some_split _ _ _) Hs)
      as (pre & post & Heq & Hpre & Hx).
    exists pre, s, post. repeat split; auto.
    intros Huniq. apply Huniq; [|exact Hx].
    rewrite Heq. apply elem_of_app. right. apply elem_of_cons. now left.
  - intros Hnone.
    assert (E : find_if (fun r => covers_virtual_address a (snd r))
                  (segments b) = None).
    { apply find_if_None_all, Forall_forall. exact Hnone. }
    now rewrite E.
Qed.

Lemma segment_from_virtual_address_first_witness :
  segment_from_virtual_address 0x100000010 sample = Ok (1%nat, text_segment) /\
  segment_from_virtual_address 0x100005000 sample = Throw not_found.
Proof.
  destruct (segment_from_virtual_address_first sample 0x100000010)
    as [Hfound _].
  destruct (segment_from_virtual_address_first sample 0x100005000)
    as [_ Hnone].
  split.
  - destruct (Hfound (1%nat, text_segment)) as (pre & s & post & _ & _ & _ & Hr & Hs).
    + apply elem_of_segments. reflexivity.
    + reflexivity.
    + rewrite Hr. f_equal. apply Hs. intros r Hr'.
      apply list_elem_of_In in Hr'. vm_compute in Hr'.
      intros Hc. intuition (subst; try reflexivity; try discriminate).
  - apply Hnone. intros r Hr. apply list_elem_of_In in Hr. vm_compute in Hr.
    intuition (subst; reflexivity).
Defined.

(** C6. [segment_from_offset o] returns the first segment, in command order,
    with [file_offset <= o <= file_offset + file_size], and throws
    [not_found] when there is none.  The upper bound is inclusive: the offset
    one past the file range of a segment is still covered, whereas the
    address one past the virtual range of a segment is not covered by
    [segment_from_virtual_address]'s test. *)
Theorem segment_from_offset_first (b : Binary) (o : Z) :
  (forall r,
     segment_from_offset o b = Ok r <->
     exists pre post,
       segments b = pre ++ r :: post /\
       Forall (fun r' => ~ (SegmentCommand.file_offset (snd r') <= o <=
                            add64 (SegmentCommand.file_offset (snd r'))
                                  (SegmentCommand.file_size (snd r')))) pre /\
       SegmentCommand.file_offset (snd r) <= o <=
       add64 (SegmentCommand.file_offset (snd r))
             (SegmentCommand.file_size (snd r))) /\
  (segment_from_offset o b = Throw not_found <->
   Forall (fun r' => ~ (SegmentCommand.file_offset (snd r') <= o <=
                        add64 (SegmentCommand.file_offset (snd r'))
                              (SegmentCommand.file_size (snd r'))))
     (segments b)) /\
  (forall s,
     SegmentCommand.file_offset s <=
       add64 (SegmentCommand.file_offset s) (SegmentCommand.file_size s) ->
     covers_offset
       (add64 (SegmentCommand.file_offset s) (SegmentCommand.file_size s)) s
     = true) /\
  (forall s,
     covers_virtual_address
       (add64 (SegmentCommand.virtual_address s)
              (SegmentCommand.virtual_size s)) s
     = false).
Proof.
  assert (Hneg : forall l,
    Forall (fun r' : ref SegmentCommand.t => covers_offset o (snd r') = false) l <->
    Forall (fun r' => ~ (SegmentCommand.file_offset (snd r') <= o <=
                         add64 (SegmentCommand.file_offset (snd r'))
                               (SegmentCommand.file_size (snd r')))) l).
  { intros l. apply Forall_iff. intros r'.
    rewrite <- covers_offset_iff. destruct (covers_offset o (snd r')); split;
      congruence. }
  unfold segment_from_offset. repeat split.
  - destruct (find_if _ _) eqn:E; [|discriminate]. intros [= ->].
    apply find_if_Some_split in E as (pre & post & Heq & Hpre & Hx).
    exists pre, post. rewrite <- Hneg, <- covers_offset_iff. auto.
  - intros (pre & post & Heq & Hpre & Hx).
    rewrite <- Hneg in Hpre. rewrite <- covers_offset_iff in Hx.
    assert (E : find_if (fun r' => covers_offset o (snd r')) (segments b)
                = Some r).
    { apply find_if_Some_split. eauto. }
    now rewrite E.
  - destruct (find_if _ _) eqn:E; [discriminate|]. intros _.
    apply Hneg. now apply find_if_None_all.
  - intros H. apply Hneg, find_if_None_all in H. now rewrite H.
  - intros s Hle. apply covers_offset_iff. lia.
  - intros s. unfold covers_virtual_address.
    apply andb_false_iff. right. lia.
Qed.

Lemma segment_from_offset_first_witness :
  segment_from_offset 0x20 sample = Ok (1%nat, text_segment).
Proof.
  apply (proj1 (segment_from_offset_first sample 0x20)).
  exists [(0%nat, pagezero)],
         [(3%nat, data_segment); (5%nat, linkedit)].
  split; [reflexivity|]. split.
  - constructor; [|constructor]. vm_compute. intros [_ H]. now apply H.
  - vm_compute. split; discriminate.
Defined.

(** *** [virtual_address_to_offset] *)

Lemma find_if_ext {A} (p q : A -> bool) (l : list A) :
  Forall (fun x => p x = q x) l -> find_if p l = find_if q l.
Proof.
  induction 1 as [|x l Hx _ IH]; simpl; [reflexivity|].
  now rewrite Hx, IH.
Qed.

(** What the source does: the first segment with
    [virtual_address <= a <= virtual_address + virtual_size], both ends
    included. *)
Lemma virtual_address_to_offset_closed_range (b : Binary) (a : Z) :
  (forall pre i s post,
     segments b = pre ++ (i, s) :: post ->
     Forall (fun r => reaches_virtual_address a (snd r) = false) pre ->
     SegmentCommand.virtual_address s <= a <=
       add64 (SegmentCommand.virtual_address s)
             (SegmentCommand.virtual_size s) ->
     virtual_address_to_offset a b =
       Ok (sub64 a (sub64 (SegmentCommand.virtual_address s)
                          (SegmentCommand.file_offset s)))) /\
  (virtual_address_to_offset a b = Throw conversion_error <->
   Forall (fun r => reaches_virtual_address a (snd r) = false) (segments b)).
Proof.
  unfold virtual_address_to_offset. split.
  - intros pre i s post Heq Hpre Hin.
    assert (E : find_if (fun r => reaches_virtual_address a (snd r))
                  (segments b) = Some (i, s)).
    { apply find_if_Some_split. exists pre, post. repeat split; auto.
      unfold reaches_virtual_address. simpl. apply andb_true_iff. lia. }
    now rewrite E.
  - rewrite <- find_if_None_all.
    destruct (find_if _ _) as [[i s]|]; split; congruence.
Qed.

(** Away from the end address of every segment the source and the spec's
    wording agree. *)
Lemma virtual_address_to_offset_agrees (b : Binary) (a : Z) :
  (forall r, r ∈ segments b ->
     a <> add64 (SegmentCommand.virtual_address (snd r))
                (SegmentCommand.virtual_size (snd r))) ->
  virtual_address_to_offset a b = virtual_address_to_offset_spec a b.
Proof.
  intros Hne.
  unfold virtual_address_to_offset, virtual_address_to_offset_spec,
    segment_from_virtual_address.
  rewrite (find_if_ext (fun r => reaches_virtual_address a (snd r))
             (fun r => covers_virtual_address a (snd r))).
  - now destruct (find_if _ _) as [[i s]|].
  - apply Forall_forall. intros r Hr. specialize (Hne r Hr).
    unfold reaches_virtual_address, covers_virtual_address.
    f_equal. apply eq_true_iff_eq. lia.
Qed.

(** C1. At the address one past a segment's virtual range the source still
    picks that segment.  In [sample] the address [0x100004000] is the first
    byte of [__LINKEDIT] (file offset [0x3000]) and one past [__DATA]: the
    source translates it with [__DATA]'s base to [0x4000].  The address
    [0x100005000] lies in no segment, and the source returns an offset
    instead of throwing [conversion_error]. *)
Theorem virtual_address_to_offset_at_segment_end :
  segment_from_virtual_address 0x100004000 sample = Ok (5%nat, linkedit) /\
  virtual_address_to_offset_spec 0x100004000 sample = Ok 0x3000 /\
  virtual_address_to_offset 0x100004000 sample = Ok 0x4000 /\
  segment_from_virtual_address 0x100005000 sample = Throw not_found /\
  virtual_address_to_offset_spec 0x100005000 sample = Throw conversion_error /\
  virtual_address_to_offset 0x100005000 sample = Ok 0x4000.
Proof. repeat split; vm_compute; reflexivity. Qed.

(** ** Symbols *)

Lemma filter_sublist {A} (p : A -> bool) (l : list A) :
  sublist (List.filter p l) l.
Proof.
  induction l as [|x l IH]; simpl; [constructor|].
  destruct (p x); now constructor.
Qed.

Lemma filter_partition_perm {A} (p q : A -> bool) (l : list A) :
  (forall x, q x = negb (p x)) ->
  l ≡ₚ List.filter p l ++ List.filter q l.
Proof.
  intros Hq. induction l as [|x l IH]; simpl; [reflexivity|].
  rewrite Hq. destruct (p x); simpl.
  - now rewrite <- IH.
  - now rewrite <- Permutation_middle, <- IH.
Qed.

Lemma elem_of_filter_bool {A} (p : A -> bool) (l : list A) (x : A) :
  x ∈ List.filter p l <-> x ∈ l /\ p x = true.
Proof. rewrite !list_elem_of_In. apply filter_In. Qed.

(** C5. Every symbol is exported or imported and never both; the class is
    read off the external flag alone.  [get_exported_symbols] and
    [get_imported_symbols] hold exactly the symbols of their class, in the
    order of [symbols_], and together they account for every symbol once. *)
Theorem symbol_partition (b : Binary) :
  (forall S : Symbol.t,
     (is_exported S = true /\ is_imported S = false) \/
     (is_exported S = false /\ is_imported S = true)) /\
  (forall S : Symbol.t,
     is_imported S = Symbol.is_external S /\
     is_exported S = negb (Symbol.is_external S)) /\
  (forall S, S ∈ get_exported_symbols b <->
             S ∈ symbols_ b /\ is_exported S = true) /\
  (forall S, S ∈ get_imported_symbols b <->
             S ∈ symbols_ b /\ is_imported S = true) /\
  sublist (get_exported_symbols b) (symbols_ b) /\
  sublist (get_imported_symbols b) (symbols_ b) /\
  symbols_ b ≡ₚ get_exported_symbols b ++ get_imported_symbols b.
Proof.
  unfold get_exported_symbols, get_imported_symbols.
  split; [|split; [|split; [|split; [|split; [|split]]]]].
  - intros S. unfold is_exported, is_imported.
    destruct (Symbol.is_external S); auto.
  - intros S. split; reflexivity.
  - intros S. apply elem_of_filter_bool.
  - intros S. apply elem_of_filter_bool.
  - apply filter_sublist.
  - apply filter_sublist.
  - apply filter_partition_perm. intros x. unfold is_exported, is_imported.
    now rewrite negb_involutive.
Qed.

(** ** Image base and entry point *)

(** C8. With [main_command] the first LC_MAIN command, [entrypoint] is
    [imagebase() + main_command.entrypoint()] (64-bit sum; an exception of
    [imagebase] passes through), and without any LC_MAIN command it throws
    [not_found].  [imagebase] is the virtual address of the first segment
    named ["__TEXT"], and throws [not_found] when no segment has that
    name. *)
Theorem entrypoint_imagebase (b : Binary) :
  (forall pre main_command post,
     commands_ b = pre ++ CmdMain main_command :: post ->
     Forall (fun c => command c <> LC_MAIN) pre ->
     entrypoint b =
       result_map
         (fun base => add64 base (MainCommand.entrypoint main_command))
         (imagebase b)) /\
  (Forall (fun c => command c <> LC_MAIN) (commands_ b) ->
   entrypoint b = Throw not_found) /\
  (forall pre i segment post,
     segments b = pre ++ (i, segment) :: post ->
     Forall (fun r => SegmentCommand.name (snd r) <> "__TEXT"%string) pre ->
     SegmentCommand.name segment = "__TEXT"%string ->
     imagebase b = Ok (SegmentCommand.virtual_address segment)) /\
  (Forall (fun r => SegmentCommand.name (snd r) <> "__TEXT"%string)
     (segments b) ->
   imagebase b = Throw not_found).
Proof.
  assert (Htag : forall l,
            Forall (fun c => command c <> LC_MAIN) l ->
            Forall (fun c => is_LC_MAIN (command c) = false) l).
  { intros l Hl. eapply Forall_impl; [exact Hl|]. intros c Hc. simpl in Hc.
    destruct (command c); simpl; congruence. }
  assert (Hname : forall l : list (ref SegmentCommand.t),
            Forall (fun r => SegmentCommand.name (snd r) <> "__TEXT"%string) l ->
            Forall (fun r => String.eqb (SegmentCommand.name (snd r)) "__TEXT"
                             = false) l).
  { intros l Hl. eapply Forall_impl; [exact Hl|]. intros r Hr. simpl in Hr.
    now apply String.eqb_neq. }
  split; [|split; [|split]].
  - intros pre m post Heq Hpre. unfold entrypoint.
    assert (E : find_if (fun c => is_LC_MAIN (command c)) (commands_ b)
                = Some (CmdMain m)).
    { apply find_if_Some_split. exists pre, post. auto. }
    rewrite E. now destruct (imagebase b).
  - intros Hnone. unfold entrypoint.
    assert (E : find_if (fun c => is_LC_MAIN (command c)) (commands_ b)
                = None).
    { apply find_if_None_all. auto. }
    now rewrite E.
  - intros pre i segment post Heq Hpre Hn. unfold imagebase.
    assert (E : find_if
                  (fun r => String.eqb (SegmentCommand.name (snd r)) "__TEXT")
                  (segments b) = Some (i, segment)).
    { apply find_if_Some_split. exists pre, post. repeat split; auto.
      simpl. now apply String.eqb_eq. }
    now rewrite E.
  - intros Hnone. unfold imagebase.
    assert (E : find_if
                  (fun r => String.eqb (SegmentCommand.name (snd r)) "__TEXT")
                  (segments b) = None).
    { apply find_if_None_all. auto. }
    now rewrite E.
Qed.

Lemma entrypoint_imagebase_witness :
  imagebase sample = Ok 0x100000000 /\
  entrypoint sample = Ok 0x100000f30 /\
  entrypoint sample_no_main = Throw not_found /\
  imagebase sample_no_text = Throw not_found /\
  entrypoint sample_no_text = Throw not_found.
Proof.
  assert (Hbase : imagebase sample = Ok 0x100000000).
  { apply (proj1 (proj2 (proj2 (entrypoint_imagebase sample)))
             [(0%nat, pagezero)] 1%nat text_segment
             [(3%nat, data_segment); (5%nat, linkedit)]).
    - reflexivity.
    - repeat constructor. discriminate.
    - reflexivity. }
  assert (Hnotext : imagebase sample_no_text = Throw not_found).
  { apply (proj2 (proj2 (proj2 (entrypoint_imagebase sample_no_text)))).
    repeat constructor; discriminate. }
  split; [exact Hbase|]. split; [|split; [|split; [exact Hnotext|]]].
  - rewrite (proj1 (entrypoint_imagebase sample)
               [CmdSegment pagezero; CmdSegment text_segment; CmdOther 0x22;
                CmdSegment data_segment]
               sample_main [CmdSegment linkedit]).
    + rewrite Hbase. reflexivity.
    + reflexivity.
    + repeat constructor; discriminate.
  - apply (proj1 (proj2 (entrypoint_imagebase sample_no_main))).
    repeat constructor; discriminate.
  - rewrite (proj1 (entrypoint_imagebase sample_no_text)
               [CmdSegment pagezero] sample_main [CmdSegment data_segment]).
    + rewrite Hnotext. reflexivity.
    + reflexivity.
    + repeat constructor; discriminate.
Defined.

(** ** [insert_command] *)

(** C9. On a binary with at least one command, [insert_command c] changes
    nothing (commands, header counters and symbols are the ones from before
    the call) and returns a reference to the last command of the sequence,
    at index [length - 1]; the argument is not appended. *)
Theorem insert_command_no_effect (b : Binary) (c : LoadCommand) :
  commands_ b <> [] ->
  exists back_cmd,
    insert_command c b = (Ok (pred (length (commands_ b)), back_cmd), b) /\
    last (commands_ b) = Some back_cmd /\
    commands_ b !! pred (length (commands_ b)) = Some back_cmd /\
    commands_ (snd (insert_command c b)) = commands_ b /\
    length (commands_ (snd (insert_command c b))) = length (commands_ b) /\
    Header.nb_cmds (header_ (snd (insert_command c b)))
      = Header.nb_cmds (header_ b) /\
    Header.sizeof_cmds (header_ (snd (insert_command c b)))
      = Header.sizeof_cmds (header_ b) /\
    symbols_ (snd (insert_command c b)) = symbols_ b /\
    snd (insert_command c b) = b.
Proof.
  intros Hne. unfold insert_command.
  destruct (last (commands_ b)) as [l|] eqn:E.
  - exists l. simpl. repeat split; auto.
    rewrite last_lookup in E. exact E.
  - apply last_None in E. contradiction.
Qed.

Lemma insert_command_no_effect_witness :
  insert_command (CmdOther 0x26) sample
  = (Ok (5%nat, CmdSegment linkedit), sample).
Proof.
  destruct (insert_command_no_effect sample (CmdOther 0x26))
    as (back_cmd & Hcall & Hlast & _).
  - discriminate.
  - rewrite Hcall. injection Hlast as <-. reflexivity.
Defined.

(** ** [disable_pie] *)

Lemma MH_PIE_bit : MH_PIE = 2 ^ 21.
Proof. reflexivity. Qed.

Lemma has_flag_remove_flag (h : Header.t) (flag : Z) :
  Header.has_flag (Header.remove_flag h flag) flag = false.
Proof.
  unfold Header.has_flag, Header.remove_flag. simpl.
  rewrite <- Z.land_assoc, (Z.land_comm (Z.lnot flag)), Z.land_lnot_diag.
  now rewrite Z.land_0_r.
Qed.

Lemma remove_flag_other_bits (h : Header.t) (flag n : Z) :
  0 <= n -> Z.testbit flag n = false ->
  Z.testbit (Header.flags (Header.remove_flag h flag)) n
  = Z.testbit (Header.flags h) n.
Proof.
  intros Hn Hbit. unfold Header.remove_flag. simpl.
  rewrite Z.land_spec, Z.lnot_spec, Hbit by exact Hn.
  apply andb_true_r.
Qed.

(** C10. When MH_PIE is set, [disable_pie] returns [true] and clears that
    bit of the header flags and nothing else: every other flag bit, every
    other header field, the commands and the symbols are as before.  When
    MH_PIE is not set it returns [false] and the binary is unchanged. *)
Theorem disable_pie_effect (b : Binary) :
  (Header.has_flag (header_ b) MH_PIE = true ->
   exists b',
     disable_pie b = (Ok true, b') /\
     Header.has_flag (header_ b') MH_PIE = false /\
     Z.testbit (Header.flags (header_ b')) 21 = false /\
     (forall n, 0 <= n -> n <> 21 ->
        Z.testbit (Header.flags (header_ b')) n
        = Z.testbit (Header.flags (header_ b)) n) /\
     Header.cpu_type (header_ b') = Header.cpu_type (header_ b) /\
     Header.file_type (header_ b') = Header.file_type (header_ b) /\
     Header.nb_cmds (header_ b') = Header.nb_cmds (header_ b) /\
     Header.sizeof_cmds (header_ b') = Header.sizeof_cmds (header_ b) /\
     commands_ b' = commands_ b /\
     symbols_ b' = symbols_ b /\
     is64_ b' = is64_ b) /\
  (Header.has_flag (header_ b) MH_PIE = false ->
   disable_pie b = (Ok false, b)).
Proof.
  unfold disable_pie. split; intros Hflag; rewrite Hflag.
  - eexists. split; [reflexivity|].
    cbn [header_ symbols_ commands_ is64_ snd fst].
    split; [apply has_flag_remove_flag|].
    split.
    { unfold Header.remove_flag. cbn [Header.flags].
      rewrite Z.land_spec, Z.lnot_spec by lia. rewrite MH_PIE_bit.
      rewrite Z.pow2_bits_true by lia. apply andb_false_r. }
    split.
    { intros n Hn Hne.
      apply (remove_flag_other_bits (header_ b) MH_PIE n Hn).
      rewrite MH_PIE_bit. apply Z.pow2_bits_false. congruence. }
    repeat split.
  - reflexivity.
Qed.

Lemma disable_pie_effect_witness :
  (exists b',
     disable_pie sample = (Ok true, b') /\
     Header.has_flag (header_ b') MH_PIE = false /\
     Header.nb_cmds (header_ b') = 6 /\
     commands_ b' = commands_ sample /\
     symbols_ b' = symbols_ sample) /\
  disable_pie sample_no_pie = (Ok false, sample_no_pie).
Proof.
  split.
  - destruct (proj1 (disable_pie_effect sample))
      as (b' & Hcall & Hflag & _ & _ & _ & _ & Hn & _ & Hcmds & Hsyms & _).
    + reflexivity.
    + exists b'. repeat split; assumption.
  - apply (proj2 (disable_pie_effect sample_no_pie)). reflexivity.
Defined.

(** ** Patch subsystem *)

Lemma sub64_range (a b : Z) : 0 <= sub64 a b < 2 ^ 64.
Proof. unfold sub64, wrap64. apply Z.mod_pos_bound. lia. Qed.

Section overwrite_facts.
Context (content src : list Z) (offset : nat).
Hypothesis Hfit : (offset + length src <= length content)%nat.

Lemma overwrite_length :
  length (overwrite content offset src) = length content.
Proof.
  unfold overwrite. rewrite !length_app, length_take, length_drop. lia.
Qed.

Lemma overwrite_lookup_inside (k : nat) :
  (k < length src)%nat ->
  overwrite content offset src !! (offset + k)%nat = src !! k.
Proof.
  intros Hk. unfold overwrite.
  rewrite lookup_app_r by (rewrite length_take; lia).
  rewrite length_take.
  replace (offset + k - offset `min` length content)%nat with k by lia.
  now rewrite lookup_app_l.
Qed.

Lemma overwrite_lookup_outside (j : nat) :
  (j < offset)%nat \/ (offset + length src <= j)%nat ->
  overwrite content offset src !! j = content !! j.
Proof.
  unfold overwrite. intros [Hj|Hj].
  - rewrite lookup_app_l by (rewrite length_take; lia).
    now apply lookup_take_lt.
  - rewrite lookup_app_r by (rewrite length_take; lia).
    rewrite lookup_app_r by (rewrite length_take; lia).
    rewrite lookup_drop, length_take. f_equal. lia.
Qed.

Lemma overwrite_idem :
  overwrite (overwrite content offset src) offset src
  = overwrite content offset src.
Proof.
  unfold overwrite at 1 3.
  assert (Hlen : length (take offset content) = offset)
    by (rewrite length_take; lia).
  f_equal; [|f_equal].
  - unfold overwrite. now rewrite take_app_length'.
  - unfold overwrite. rewrite app_assoc.
    rewrite drop_app_length'; [reflexivity|].
    rewrite length_app. lia.
Qed.
End overwrite_facts.

Lemma overwrite_nil (content : list Z) (offset : nat) :
  overwrite content offset [] = content.
Proof.
  unfold overwrite. simpl. rewrite Nat.add_0_r. apply take_drop.
Qed.

Lemma copy_into_fits (src content : list Z) (offset : Z) :
  offset + Z.of_nat (length src) <= Z.of_nat (length content) ->
  copy_into src content offset = Ok (overwrite content (Z.to_nat offset) src).
Proof.
  intros H. unfold copy_into.
  rewrite (proj2 (Z.leb_le _ _) H). now rewrite orb_true_r.
Qed.

Lemma copy_into_empty (content : list Z) (offset : Z) :
  copy_into [] content offset = Ok content.
Proof. unfold copy_into. simpl. now rewrite overwrite_nil. Qed.

Lemma copy_into_lands (src content : list Z) (offset : Z) :
  src = [] \/
  offset + Z.of_nat (length src) <= Z.of_nat (length content) ->
  copy_into src content offset = Ok (overwrite content (Z.to_nat offset) src).
Proof.
  intros [->|H]; [|now apply copy_into_fits].
  now rewrite copy_into_empty, overwrite_nil.
Qed.

Lemma copy_into_outside (src content : list Z) (offset : Z) :
  ~ (src = [] \/
     offset + Z.of_nat (length src) <= Z.of_nat (length content)) ->
  copy_into src content offset = Undefined.
Proof.
  intros H. unfold copy_into.
  rewrite (proj2 (Z.eqb_neq _ _)), (proj2 (Z.leb_gt _ _)); [reflexivity| |].
  - lia.
  - destruct src; [tauto|simpl; lia].
Qed.

(** The segment lookups read addresses and sizes only, so they do not see a
    change of a content buffer. *)
Lemma find_if_in {A} (p : A -> bool) (l : list A) (x : A) :
  find_if p l = Some x -> x ∈ l /\ p x = true.
Proof.
  intros H. apply find_if_Some_split in H as (pre & post & -> & _ & Hx).
  split; [|exact Hx]. apply elem_of_app. right. apply elem_of_cons. now left.
Qed.

Lemma find_segment_set_content (p : SegmentCommand.t -> bool)
    (cmds : list LoadCommand) (k j : nat) (s : SegmentCommand.t)
    (data : list Z) :
  p (SegmentCommand.set_content s data) = p s ->
  find_if (fun r => p (snd r)) (segments_from k cmds) = Some (j, s) ->
  find_if (fun r => p (snd r))
    (segments_from k
       (<[(j - k)%nat := CmdSegment (SegmentCommand.set_content s data)]> cmds))
  = Some (j, SegmentCommand.set_content s data).
Proof.
  intros Hp. revert k.
  induction cmds as [|c tl IH]; intros k; simpl; [discriminate|].
  assert (Htl : find_if (fun r => p (snd r)) (segments_from (S k) tl)
                = Some (j, s) ->
          find_if (fun r => p (snd r))
            (segments_from (S k)
               (<[(j - S k)%nat :=
                    CmdSegment (SegmentCommand.set_content s data)]> tl))
          = Some (j, SegmentCommand.set_content s data) /\
          (j - k)%nat = S (j - S k)).
  { intros H. split; [now apply IH|].
    apply find_if_in in H as [H _].
    apply segments_from_lookup in H as [H _]. lia. }
  destruct c as [s0| | | |];
    try (intros H; destruct (Htl H) as [H1 ->]; simpl; exact H1).
  simpl. destruct (p s0) eqn:Hs0.
  - intros [= -> ->]. rewrite Nat.sub_diag. simpl. now rewrite Hp, Hs0.
  - intros H. destruct (Htl H) as [H1 ->]. simpl. now rewrite Hs0.
Qed.

Lemma patch_address_body (address : Z) (patch_value : list Z) :
  patch_address address patch_value = write_segment address patch_value.
Proof. reflexivity. Qed.

Lemma patch_address_value_body (address patch_value size : Z) :
  patch_address_value address patch_value size =
  if sizeof_uint64 <? size then throw runtime_error
  else write_segment address (object_bytes patch_value size).
Proof. reflexivity. Qed.

Lemma segment_from_virtual_address_Ok (a : Z) (b : Binary) (i : nat)
    (seg : SegmentCommand.t) :
  segment_from_virtual_address a b = Ok (i, seg) ->
  commands_ b !! i = Some (CmdSegment seg) /\
  covers_virtual_address a seg = true.
Proof.
  unfold segment_from_virtual_address.
  destruct (find_if _ _) as [r|] eqn:E; [|discriminate].
  intros [= ->]. apply find_if_in in E as [Hin Hc].
  split; [now apply elem_of_segments|exact Hc].
Qed.

Lemma segment_from_virtual_address_set_content (a : Z) (b : Binary)
    (i : nat) (seg : SegmentCommand.t) (data : list Z) :
  segment_from_virtual_address a b = Ok (i, seg) ->
  segment_from_virtual_address a
    (with_commands b
       (<[i := CmdSegment (SegmentCommand.set_content seg data)]>
          (commands_ b)))
  = Ok (i, SegmentCommand.set_content seg data).
Proof.
  unfold segment_from_virtual_address, segments. simpl.
  destruct (find_if _ (segments_from 0 (commands_ b))) as [r|] eqn:E;
    [|discriminate].
  intros [= ->].
  apply (find_segment_set_content (covers_virtual_address a) _ _ _ _ data)
    in E; [|reflexivity].
  rewrite Nat.sub_0_r in E. now rewrite E.
Qed.

(** A covered address and a source that is empty or fits: the write goes
    through and replaces the buffer of the owning segment, in place. *)
Lemma write_segment_lands (a : Z) (src : list Z) (b : Binary) (i : nat)
    (seg : SegmentCommand.t) :
  segment_from_virtual_address a b = Ok (i, seg) ->
  src = [] \/
  sub64 a (SegmentCommand.virtual_address seg) + Z.of_nat (length src)
    <= Z.of_nat (length (SegmentCommand.content seg)) ->
  write_segment a src b =
  (Ok tt,
   with_commands b
     (<[i := CmdSegment
               (SegmentCommand.set_content seg
                  (overwrite (SegmentCommand.content seg)
                     (Z.to_nat (sub64 a (SegmentCommand.virtual_address seg)))
                     src))]>
        (commands_ b))).
Proof.
  intros Hseg Hland.
  destruct (segment_from_virtual_address_Ok _ _ _ _ Hseg) as [Hi _].
  unfold write_segment, bind, call. rewrite Hseg. simpl.
  rewrite (copy_into_lands _ _ _ Hland).
  unfold set_segment_content. now rewrite Hi.
Qed.

Lemma write_segment_fits (a : Z) (src : list Z) (b : Binary) (i : nat)
    (seg : SegmentCommand.t) :
  segment_from_virtual_address a b = Ok (i, seg) ->
  sub64 a (SegmentCommand.virtual_address seg) + Z.of_nat (length src)
    <= Z.of_nat (length (SegmentCommand.content seg)) ->
  write_segment a src b =
  (Ok tt,
   with_commands b
     (<[i := CmdSegment
               (SegmentCommand.set_content seg
                  (overwrite (SegmentCommand.content seg)
                     (Z.to_nat (sub64 a (SegmentCommand.virtual_address seg)))
                     src))]>
        (commands_ b))).
Proof.
  intros Hseg Hfit.
  destruct (segment_from_virtual_address_Ok _ _ _ _ Hseg) as [Hi _].
  unfold write_segment, bind, call. rewrite Hseg. simpl.
  rewrite (copy_into_fits _ _ _ Hfit).
  unfold set_segment_content. now rewrite Hi.
Qed.

(** The outcomes of the common body, listed. *)
Lemma write_segment_cases (a : Z) (src : list Z) (b : Binary) :
  (segment_from_virtual_address a b = Throw not_found /\
   write_segment a src b = (Throw not_found, b)) \/
  (exists i seg,
     segment_from_virtual_address a b = Ok (i, seg) /\
     (((src = [] \/
        sub64 a (SegmentCommand.virtual_address seg) + Z.of_nat (length src)
          <= Z.of_nat (length (SegmentCommand.content seg))) /\
       exists b', write_segment a src b = (Ok tt, b')) \/
      (~ (src = [] \/
          sub64 a (SegmentCommand.virtual_address seg)
            + Z.of_nat (length src)
            <= Z.of_nat (length (SegmentCommand.content seg))) /\
       write_segment a src b = (Undefined, b)))).
Proof.
  destruct (segment_from_virtual_address a b) as [[i seg]|e|] eqn:Hseg.
  - right. exists i, seg. split; [reflexivity|].
    destruct (decide (src = [] \/
                sub64 a (SegmentCommand.virtual_address seg)
                  + Z.of_nat (length src)
                  <= Z.of_nat (length (SegmentCommand.content seg))))
      as [Hland|Hout].
    + left. split; [exact Hland|]. eexists.
      exact (write_segment_lands _ _ _ _ _ Hseg Hland).
    + right. split; [exact Hout|].
      unfold write_segment, bind, call. rewrite Hseg. simpl.
      now rewrite (copy_into_outside _ _ _ Hout).
  - assert (e = not_found) as ->.
    { unfold segment_from_virtual_address in Hseg.
      destruct (find_if _ _); congruence. }
    left. split; [reflexivity|].
    unfold write_segment, bind, call. now rewrite Hseg.
  - unfold segment_from_virtual_address in Hseg.
    destruct (find_if _ _); discriminate.
Qed.

Lemma write_segment_again (a : Z) (src : list Z) (b b' : Binary) (i : nat)
    (seg : SegmentCommand.t) :
  segment_from_virtual_address a b = Ok (i, seg) ->
  sub64 a (SegmentCommand.virtual_address seg) + Z.of_nat (length src)
    <= Z.of_nat (length (SegmentCommand.content seg)) ->
  write_segment a src b = (Ok tt, b') ->
  write_segment a src b' = (Ok tt, b').
Proof.
  intros Hseg Hfit Hfirst.
  rewrite (write_segment_fits _ _ _ _ _ Hseg Hfit) in Hfirst.
  injection Hfirst as <-.
  pose proof (sub64_range a (SegmentCommand.virtual_address seg)) as Hoff.
  set (off := Z.to_nat (sub64 a (SegmentCommand.virtual_address seg))).
  assert (Hnat : (off + length src <= length (SegmentCommand.content seg))%nat)
    by (unfold off; lia).
  set (data := overwrite (SegmentCommand.content seg) off src).
  rewrite (write_segment_fits a src _ i (SegmentCommand.set_content seg data)).
  - f_equal. unfold with_commands. cbn [is64_ header_ commands_ symbols_].
    rewrite list_insert_insert_eq. do 3 f_equal.
    unfold SegmentCommand.set_content at 1.
    cbn [SegmentCommand.name SegmentCommand.virtual_address
         SegmentCommand.virtual_size SegmentCommand.file_offset
         SegmentCommand.file_size SegmentCommand.content
         SegmentCommand.sections SegmentCommand.set_content].
    fold off. unfold data. rewrite overwrite_idem by exact Hnat.
    reflexivity.
  - now apply segment_from_virtual_address_set_content.
  - cbn [SegmentCommand.set_content SegmentCommand.virtual_address
         SegmentCommand.content].
    unfold data. rewrite overwrite_length by exact Hnat. exact Hfit.
Qed.

Lemma write_segment_again_lands (a : Z) (src : list Z) (b b' : Binary)
    (i : nat) (seg : SegmentCommand.t) :
  segment_from_virtual_address a b = Ok (i, seg) ->
  src = [] \/
  sub64 a (SegmentCommand.virtual_address seg) + Z.of_nat (length src)
    <= Z.of_nat (length (SegmentCommand.content seg)) ->
  write_segment a src b = (Ok tt, b') ->
  write_segment a src b' = (Ok tt, b').
Proof.
  intros Hseg [->|Hfit] Hfirst;
    [|exact (write_segment_again _ _ _ _ _ _ Hseg Hfit Hfirst)].
  rewrite (write_segment_lands _ _ _ _ _ Hseg (or_introl eq_refl)) in Hfirst.
  injection Hfirst as <-.
  rewrite (write_segment_lands a [] _ i
             (SegmentCommand.set_content seg
                (overwrite (SegmentCommand.content seg)
                   (Z.to_nat (sub64 a (SegmentCommand.virtual_address seg)))
                   []))).
  - f_equal. unfold with_commands. cbn [is64_ header_ commands_ symbols_].
    rewrite list_insert_insert_eq. do 3 f_equal.
    cbn [SegmentCommand.set_content SegmentCommand.name
         SegmentCommand.virtual_address SegmentCommand.virtual_size
         SegmentCommand.file_offset SegmentCommand.file_size
         SegmentCommand.content SegmentCommand.sections].
    now rewrite !overwrite_nil.
  - now apply segment_from_virtual_address_set_content.
  - now left.
Qed.

(** Sequencing the same patch twice is the same computation as doing it
    once, whatever the outcome. *)
Lemma patch_address_twice (addr : Z) (bytes : list Z) (b : Binary) :
  (let* _ := patch_address addr bytes in patch_address addr bytes) b
  = patch_address addr bytes b.
Proof.
  rewrite patch_address_body. unfold bind at 1.
  destruct (write_segment_cases addr bytes b)
    as [[_ H]|(i & seg & Hseg & [[Hfit [b' H]]|[_ H]])]; rewrite H; auto.
  now apply (write_segment_again_lands _ _ _ _ _ _ Hseg Hfit).
Qed.

(** C7. When a segment covers [addr] and [bytes] fits into its buffer at the
    segment-local offset, [patch_address addr bytes] succeeds, and running it
    again on the state it leaves succeeds and leaves that very state: the
    content buffer of the segment, and the binary as a whole, are the same
    after one and after two applications. *)
Theorem patch_address_idempotent (addr : Z) (bytes : list Z) (b : Binary)
    (i : nat) (seg : SegmentCommand.t) :
  segment_from_virtual_address addr b = Ok (i, seg) ->
  sub64 addr (SegmentCommand.virtual_address seg) + Z.of_nat (length bytes)
    <= Z.of_nat (length (SegmentCommand.content seg)) ->
  exists b' content',
    patch_address addr bytes b = (Ok tt, b') /\
    commands_ b' !! i
      = Some (CmdSegment (SegmentCommand.set_content seg content')) /\
    patch_address addr bytes b' = (Ok tt, b') /\
    (let* _ := patch_address addr bytes in patch_address addr bytes) b
      = (Ok tt, b').
Proof.
  intros Hseg Hfit.
  pose proof (write_segment_fits _ _ _ _ _ Hseg Hfit) as Hfirst.
  destruct (segment_from_virtual_address_Ok _ _ _ _ Hseg) as [Hi _].
  eexists. eexists. rewrite !patch_address_body.
  split; [exact Hfirst|]. split; [|split].
  - cbn [with_commands commands_]. apply list_lookup_insert_eq.
    now apply lookup_lt_Some in Hi.
  - exact (write_segment_again _ _ _ _ _ _ Hseg Hfit Hfirst).
  - unfold bind. rewrite Hfirst.
    exact (write_segment_again _ _ _ _ _ _ Hseg Hfit Hfirst).
Qed.

Lemma patch_address_idempotent_witness :
  exists b',
    patch_address 0x100000010 [0xde; 0xad; 0xbe; 0xef] sample = (Ok tt, b') /\
    patch_address 0x100000010 [0xde; 0xad; 0xbe; 0xef] b' = (Ok tt, b').
Proof.
  destruct (patch_address_idempotent 0x100000010 [0xde; 0xad; 0xbe; 0xef]
              sample 1%nat text_segment)
    as (b' & content' & H1 & _ & H2 & _).
  - reflexivity.
  - vm_compute. discriminate.
  - exists b'. split; assumption.
Defined.

(** *** The scalar overload *)

Lemma byte_of_div_mod (value : Z) (k : nat) :
  byte_of value k = (value / 2 ^ (8 * Z.of_nat k)) mod 256.
Proof.
  unfold byte_of. rewrite Z.shiftr_div_pow2 by lia.
  change 255 with (Z.ones 8). now rewrite Z.land_ones by lia.
Qed.

Lemma map_seq_lookup {A} (f : nat -> A) (start n k : nat) :
  (k < n)%nat -> map f (seq start n) !! k = Some (f (start + k)%nat).
Proof.
  revert start k. induction n as [|n IH]; intros start k Hk; [lia|].
  destruct k as [|k]; simpl.
  - now rewrite Nat.add_0_r.
  - rewrite IH by lia. do 2 f_equal. lia.
Qed.

Lemma object_bytes_length (value size : Z) :
  length (object_bytes value size) = Z.to_nat size.
Proof. unfold object_bytes. now rewrite length_map, length_seq. Qed.

Lemma object_bytes_lookup (value size : Z) (k : nat) :
  (k < Z.to_nat size)%nat ->
  object_bytes value size !! k = Some ((value / 2 ^ (8 * Z.of_nat k)) mod 256).
Proof.
  intros Hk. unfold object_bytes.
  now rewrite map_seq_lookup, byte_of_div_mod by exact Hk.
Qed.

(** C3. [patch_address(address, value, size)] throws [runtime_error] (the
    spec's InvalidArgument) exactly when [size > 8], and then the binary is
    the one it was called on: the check comes before the segment lookup and
    before any write.  For [size <= 8] and an address covered by a segment,
    when no byte is written ([size = 0]) or the [size] bytes end inside that
    segment's buffer, the call succeeds and replaces the buffer of the
    owning segment, in place, by one of the same length in which the byte at
    local offset [address - virtual_address + k], [k < size], is byte [k] of
    [value] counted from the low end, and every other byte is as before.
    [0xAABB] with [size = 2] is written as [BB AA]. *)
Theorem patch_address_value_spec (address value size : Z) (b : Binary) :
  (fst (patch_address_value address value size b) = Throw runtime_error <->
   8 < size) /\
  (8 < size ->
   patch_address_value address value size b = (Throw runtime_error, b)) /\
  (0 <= size <= 8 ->
   forall i seg,
     segment_from_virtual_address address b = Ok (i, seg) ->
     size = 0 \/
     sub64 address (SegmentCommand.virtual_address seg) + size
       <= Z.of_nat (length (SegmentCommand.content seg)) ->
     exists content',
       patch_address_value address value size b =
         (Ok tt,
          with_commands b
            (<[i := CmdSegment (SegmentCommand.set_content seg content')]>
               (commands_ b))) /\
       length content' = length (SegmentCommand.content seg) /\
       (forall k : nat,
          (k < Z.to_nat size)%nat ->
          content' !! (Z.to_nat (sub64 address
                                   (SegmentCommand.virtual_address seg))
                       + k)%nat
          = Some ((value / 2 ^ (8 * Z.of_nat k)) mod 256)) /\
       (forall j : nat,
          (Z.of_nat j < sub64 address (SegmentCommand.virtual_address seg) \/
           sub64 address (SegmentCommand.virtual_address seg) + size
             <= Z.of_nat j) ->
          content' !! j = SegmentCommand.content seg !! j)) /\
  object_bytes 0xAABB 2 = [0xBB; 0xAA].
Proof.
  rewrite patch_address_value_body. unfold sizeof_uint64.
  split; [|split; [|split]].
  - destruct (8 <? size) eqn:Hsz.
    + apply Z.ltb_lt in Hsz. simpl. tauto.
    + apply Z.ltb_ge in Hsz. split; [|lia]. intros H. exfalso.
      destruct (write_segment_cases address (object_bytes value size) b)
        as [[_ Hw]|(i & seg & _ & [[_ [b' Hw]]|[_ Hw]])];
        rewrite Hw in H; discriminate.
  - intros Hsz. now rewrite (proj2 (Z.ltb_lt _ _) Hsz).
  - intros [Hlo Hhi] i seg Hseg Hland.
    rewrite (proj2 (Z.ltb_ge _ _) Hhi).
    pose proof (sub64_range address (SegmentCommand.virtual_address seg))
      as Hoff.
    pose proof (object_bytes_length value size) as Hlen.
    destruct Hland as [->|Hfit].
    + exists (SegmentCommand.content seg).
      split; [|split; [reflexivity|split]].
      * change (object_bytes value 0) with (@nil Z).
        rewrite (write_segment_lands _ _ _ _ _ Hseg (or_introl eq_refl)).
        now rewrite overwrite_nil.
      * intros k Hk. simpl in Hk. lia.
      * reflexivity.
    + assert (Hnat : (Z.to_nat (sub64 address
                                  (SegmentCommand.virtual_address seg))
                      + length (object_bytes value size)
                      <= length (SegmentCommand.content seg))%nat) by lia.
      eexists. split; [apply write_segment_fits; [exact Hseg|lia]|].
      split; [now apply overwrite_length|]. split.
      * intros k Hk. rewrite overwrite_lookup_inside by lia.
        now apply object_bytes_lookup.
      * intros j Hj. apply overwrite_lookup_outside; lia.
  - reflexivity.
Qed.

Lemma patch_address_value_spec_witness :
  (exists b',
     patch_address_value 0x100000010 0xAABB 2 sample = (Ok tt, b') /\
     exists seg',
       commands_ b' !! 1%nat = Some (CmdSegment seg') /\
       SegmentCommand.content seg' !! 16%nat = Some 0xBB /\
       SegmentCommand.content seg' !! 17%nat = Some 0xAA /\
       SegmentCommand.content seg' !! 18%nat = Some 0x90) /\
  patch_address_value 0x100000010 0xAABB 9 sample
    = (Throw runtime_error, sample).
Proof.
  destruct (patch_address_value_spec 0x100000010 0xAABB 2 sample)
    as (_ & _ & Hwrite & _).
  destruct (patch_address_value_spec 0x100000010 0xAABB 9 sample)
    as (_ & Hthrow & _).
  split; [|apply Hthrow; lia].
  destruct (Hwrite ltac:(lia) 1%nat text_segment)
    as (content' & Hcall & _ & Hin & Hout).
  - reflexivity.
  - right. vm_compute. discriminate.
  - eexists. split; [exact Hcall|].
    exists (SegmentCommand.set_content text_segment content').
    split; [reflexivity|].
    cbn [SegmentCommand.set_content SegmentCommand.content].
    split; [|split].
    + exact (Hin 0%nat ltac:(vm_compute; lia)).
    + exact (Hin 1%nat ltac:(vm_compute; lia)).
    + rewrite (Hout 18%nat); [reflexivity|]. right. vm_compute. discriminate.
Defined.

(** Without the condition on the buffer the write part of C3 fails: the
    address [0x10] is covered by __PAGEZERO, whose buffer is empty, and
    [size = 1 <= 8]; the copy runs past the end of the buffer, and no call
    outcome holds the byte at local offset [0x10]. *)
Lemma patch_address_value_past_buffer :
  segment_from_virtual_address 0x10 sample = Ok (0%nat, pagezero) /\
  1 <= 8 /\
  patch_address_value 0x10 0xAA 1 sample = (Undefined, sample) /\
  ~ (exists content',
       patch_address_value 0x10 0xAA 1 sample =
         (Ok tt,
          with_commands sample
            (<[0%nat := CmdSegment
                          (SegmentCommand.set_content pagezero content')]>
               (commands_ sample))) /\
       content' !! 16%nat = Some 0xAA).
Proof.
  split; [reflexivity|]. split; [lia|]. split; [reflexivity|].
  intros (content' & Hcall & _).
  assert (H : fst (patch_address_value 0x10 0xAA 1 sample) = Undefined)
    by reflexivity.
  rewrite Hcall in H. discriminate.
Qed.

(** *** [get_content_from_virtual_address] *)

(** The local offset lies inside the buffer (its end included) and
    [offset + size] does not wrap: the slice starts at the local offset and
    is cut at the end of the buffer. *)
Lemma get_content_inside (a size : Z) (b : Binary) (i : nat)
    (seg : SegmentCommand.t) :
  segment_from_virtual_address a b = Ok (i, seg) ->
  0 <= size ->
  sub64 a (SegmentCommand.virtual_address seg) + size < 2 ^ 64 ->
  sub64 a (SegmentCommand.virtual_address seg)
    <= Z.of_nat (length (SegmentCommand.content seg)) ->
  get_content_from_virtual_address a size b =
  Ok (take (Z.to_nat size)
        (drop (Z.to_nat (sub64 a (SegmentCommand.virtual_address seg)))
              (SegmentCommand.content seg))).
Proof.
  intros Hseg Hsize Hwrap Hoff.
  pose proof (sub64_range a (SegmentCommand.virtual_address seg)) as Hrange.
  unfold get_content_from_virtual_address. rewrite Hseg.
  set (off := sub64 a (SegmentCommand.virtual_address seg)) in *.
  set (content := SegmentCommand.content seg) in *.
  cbv zeta. rewrite (add64_small off size) by lia.
  unfold vector_from_range.
  destruct (Z.of_nat (length content) <? off + size) eqn:Hover.
  - apply Z.ltb_lt in Hover.
    rewrite (sub64_small (off + size)) by lia.
    rewrite (sub64_small size) by lia.
    rewrite (proj2 (Z.leb_le _ _)) by lia.
    rewrite (proj2 (Z.leb_le _ _)) by lia.
    simpl. f_equal.
    rewrite !take_ge; [reflexivity| |]; rewrite length_drop; lia.
  - apply Z.ltb_ge in Hover.
    rewrite (proj2 (Z.leb_le _ _)) by lia.
    rewrite (proj2 (Z.leb_le _ _)) by lia.
    simpl. do 2 f_equal. lia.
Qed.

(** The local offset lies past the end of the buffer (a segment that is
    larger in memory than its buffer): the pointer pair handed to the vector
    is out of the buffer, for every size. *)
Lemma get_content_past_buffer (a size : Z) (b : Binary) (i : nat)
    (seg : SegmentCommand.t) :
  segment_from_virtual_address a b = Ok (i, seg) ->
  0 <= size ->
  Z.of_nat (length (SegmentCommand.content seg))
    < sub64 a (SegmentCommand.virtual_address seg) ->
  get_content_from_virtual_address a size b = Undefined.
Proof.
  intros Hseg Hsize Hoff.
  unfold get_content_from_virtual_address. rewrite Hseg.
  set (off := sub64 a (SegmentCommand.virtual_address seg)) in *.
  set (content := SegmentCommand.content seg) in *.
  cbv zeta. unfold vector_from_range.
  match goal with
  | |- context [off + ?c] =>
      assert (Hc : 0 <= c);
      [|rewrite (proj2 (Z.leb_gt (off + c) (Z.of_nat (length content))))
          by lia;
        now rewrite andb_false_r]
  end.
  destruct (_ <? _); [apply sub64_range|exact Hsize].
Qed.

(** C4. Ten bytes remain and a hundred are asked for: ten are returned.  But
    an address in the part of a segment that its buffer does not back
    (__PAGEZERO, which has no bytes at all, or the zero-filled tail of
    __DATA) makes [checked_size] wrap around and hands the vector a pointer
    pair outside the buffer, and so does a size that makes
    [offset + size] wrap. *)
Theorem get_content_from_virtual_address_overrun :
  get_content_from_virtual_address 0x100000016 100 sample
    = Ok (repeat 0x90 10) /\
  segment_from_virtual_address 0x10 sample = Ok (0%nat, pagezero) /\
  get_content_from_virtual_address 0x10 4 sample = Undefined /\
  segment_from_virtual_address 0x100002020 sample
    = Ok (3%nat, data_segment) /\
  get_content_from_virtual_address 0x100002020 4 sample = Undefined /\
  get_content_from_virtual_address 0x100000001 (2 ^ 64 - 1) sample
    = Undefined.
Proof. repeat split; vm_compute; reflexivity. Qed.

(** * Further properties *)

(** ** What a patch leaves alone *)

Lemma find_if_map_keep {A} (p : A -> bool) (f : A -> A) (l : list A) :
  (forall x, p (f x) = p x) ->
  find_if p (map f l) = option_map f (find_if p l).
Proof.
  intros Hp. induction l as [|x l IH]; simpl; [reflexivity|].
  rewrite Hp. now destruct (p x).
Qed.

Lemma find_if_insert_keep {A} (p : A -> bool) (l : list A) (i : nat)
    (x y : A) :
  l !! i = Some x -> p x = false -> p y = false ->
  find_if p (<[i := y]> l) = find_if p l.
Proof.
  revert i. induction l as [|z l IH]; intros [|i] Hi Hx Hy; simpl in *;
    try discriminate.
  - injection Hi as ->. now rewrite Hx, Hy.
  - now rewrite (IH i Hi Hx Hy).
Qed.

(** Replacing a buffer changes one entry of the segment view and nothing
    else in it. *)
Lemma segments_from_set_content (cmds : list LoadCommand) (k i : nat)
    (s : SegmentCommand.t) (data : list Z) :
  cmds !! i = Some (CmdSegment s) ->
  segments_from k
    (<[i := CmdSegment (SegmentCommand.set_content s data)]> cmds)
  = map (with_content_at (k + i) data) (segments_from k cmds).
Proof.
  revert k i. induction cmds as [|c tl IH]; intros k [|i] Hi; simpl in *;
    try discriminate.
  - injection Hi as ->. simpl. unfold with_content_at at 1. simpl.
    rewrite decide_True by lia. f_equal.
    rewrite <- (map_id (segments_from (S k) tl)) at 1.
    apply map_ext_in. intros [j s'] Hin.
    apply list_elem_of_In, segments_from_lookup in Hin as [Hle _].
    unfold with_content_at. simpl. now rewrite decide_False by lia.
  - rewrite (IH (S k) i Hi).
    replace (S k + i)%nat with (k + S i)%nat by lia.
    destruct c; try reflexivity.
    simpl. unfold with_content_at at 2. simpl.
    now rewrite decide_False by lia.
Qed.

Lemma segments_set_content (b : Binary) (i : nat) (seg : SegmentCommand.t)
    (data : list Z) :
  commands_ b !! i = Some (CmdSegment seg) ->
  segments
    (with_commands b
       (<[i := CmdSegment (SegmentCommand.set_content seg data)]>
          (commands_ b)))
  = map (with_content_at i data) (segments b).
Proof.
  intros Hi. unfold segments. simpl.
  now rewrite (segments_from_set_content _ 0 i seg data Hi).
Qed.

(** A lookup that does not read buffers finds, after the replacement, the
    entry it found before. *)
Lemma find_segment_after_set_content (p : SegmentCommand.t -> bool)
    (b : Binary) (i : nat) (seg : SegmentCommand.t) (data : list Z) :
  (forall s d, p (SegmentCommand.set_content s d) = p s) ->
  commands_ b !! i = Some (CmdSegment seg) ->
  find_if (fun r => p (snd r))
    (segments
       (with_commands b
          (<[i := CmdSegment (SegmentCommand.set_content seg data)]>
             (commands_ b))))
  = option_map (with_content_at i data)
      (find_if (fun r => p (snd r)) (segments b)).
Proof.
  intros Hp Hi. rewrite (segments_set_content _ _ _ _ Hi).
  apply find_if_map_keep. intros [j s]. unfold with_content_at. simpl.
  destruct (decide (j = i)); simpl; [apply Hp|reflexivity].
Qed.

(** What a successful byte patch did. *)
Lemma patch_address_Ok_inv (a : Z) (bytes : list Z) (b b' : Binary) :
  patch_address a bytes b = (Ok tt, b') ->
  exists i seg,
    segment_from_virtual_address a b = Ok (i, seg) /\
    commands_ b !! i = Some (CmdSegment seg) /\
    (bytes = [] \/
     sub64 a (SegmentCommand.virtual_address seg) + Z.of_nat (length bytes)
       <= Z.of_nat (length (SegmentCommand.content seg))) /\
    b' = with_commands b
           (<[i := CmdSegment
                     (SegmentCommand.set_content seg
                        (overwrite (SegmentCommand.content seg)
                           (Z.to_nat
                              (sub64 a (SegmentCommand.virtual_address seg)))
                           bytes))]>
              (commands_ b)).
Proof.
  rewrite patch_address_body. intros H.
  destruct (write_segment_cases a bytes b)
    as [[_ Hw]|(i & seg & Hseg & [[Hfit _]|[_ Hw]])];
    try (rewrite Hw in H; discriminate).
  exists i, seg.
  destruct (segment_from_virtual_address_Ok _ _ _ _ Hseg) as [Hi _].
  rewrite (write_segment_lands _ _ _ _ _ Hseg Hfit) in H.
  injection H as <-. auto.
Qed.

Section after_set_content.
Context (b : Binary) (i : nat) (seg : SegmentCommand.t) (data : list Z).
Hypothesis Hi : commands_ b !! i = Some (CmdSegment seg).

Local Abbreviation b' :=
  (with_commands b
     (<[i := CmdSegment (SegmentCommand.set_content seg data)]>
        (commands_ b))).

Lemma segment_from_virtual_address_after (x : Z) :
  segment_from_virtual_address x b'
  = result_map (with_content_at i data) (segment_from_virtual_address x b).
Proof.
  unfold segment_from_virtual_address.
  rewrite (find_segment_after_set_content (covers_virtual_address x))
    by (reflexivity || exact Hi).
  now destruct (find_if _ _).
Qed.

Lemma segment_from_offset_after (x : Z) :
  segment_from_offset x b'
  = result_map (with_content_at i data) (segment_from_offset x b).
Proof.
  unfold segment_from_offset.
  rewrite (find_segment_after_set_content (covers_offset x))
    by (reflexivity || exact Hi).
  now destruct (find_if _ _).
Qed.

Lemma virtual_address_to_offset_after (x : Z) :
  virtual_address_to_offset x b' = virtual_address_to_offset x b.
Proof.
  unfold virtual_address_to_offset.
  rewrite (find_segment_after_set_content (reaches_virtual_address x))
    by (reflexivity || exact Hi).
  destruct (find_if _ _) as [[j s]|]; [|reflexivity].
  simpl. unfold with_content_at. simpl. now destruct (decide (j = i)).
Qed.

Lemma imagebase_after : imagebase b' = imagebase b.
Proof.
  unfold imagebase.
  rewrite (find_segment_after_set_content
             (fun s => String.eqb (SegmentCommand.name s) "__TEXT"))
    by (reflexivity || exact Hi).
  destruct (find_if _ _) as [[j s]|]; [|reflexivity].
  simpl. unfold with_content_at. simpl. now destruct (decide (j = i)).
Qed.

Lemma entrypoint_after : entrypoint b' = entrypoint b.
Proof.
  unfold entrypoint. rewrite imagebase_after. simpl.
  now rewrite (find_if_insert_keep _ _ _ _ _ Hi).
Qed.

Lemma get_loader_after : get_loader b' = get_loader b.
Proof.
  unfold get_loader. simpl.
  now rewrite (find_if_insert_keep _ _ _ _ _ Hi).
Qed.

Lemma sections_after : sections b' = sections b.
Proof.
  unfold sections. rewrite (segments_set_content _ _ _ _ Hi).
  induction (segments b) as [|[j s] l IH]; simpl; [reflexivity|].
  rewrite IH. f_equal. unfold with_content_at. simpl.
  now destruct (decide (j = i)).
Qed.

Lemma libraries_after : libraries b' = libraries b.
Proof.
  unfold libraries. simpl. revert Hi.
  generalize (commands_ b) as cmds, i as n, 0%nat as k.
  induction cmds as [|c tl IH]; intros [|n] k Hn; simpl in *;
    try discriminate.
  - now injection Hn as ->.
  - rewrite (IH n (S k) Hn). reflexivity.
Qed.
End after_set_content.

(** ** The byte patch: failure, frame, read-back, composition *)

(** X1. [patch_address(address, bytes)] throws exactly when no segment covers
    the address; the exception is [not_found] and the binary is the one it
    was called on. *)
Theorem patch_address_throws (a : Z) (bytes : list Z) (b : Binary) :
  (Forall (fun r => covers_virtual_address a (snd r) = false) (segments b) <->
   patch_address a bytes b = (Throw not_found, b)) /\
  (forall e b', patch_address a bytes b = (Throw e, b') ->
     e = not_found /\ b' = b /\
     Forall (fun r => covers_virtual_address a (snd r) = false) (segments b)).
Proof.
  rewrite patch_address_body.
  assert (Hnf : segment_from_virtual_address a b = Throw not_found <->
                Forall (fun r => covers_virtual_address a (snd r) = false)
                  (segments b)).
  { rewrite <- find_if_None_all. unfold segment_from_virtual_address.
    destruct (find_if _ _); split; congruence. }
  destruct (write_segment_cases a bytes b)
    as [[Hseg Hw]|(i & seg & Hseg & [[_ [b1 Hw]]|[_ Hw]])]; rewrite Hw.
  - split; [split; [reflexivity|intros _; now apply Hnf]|].
    intros e b' [= <- <-]. repeat split. now apply Hnf.
  - split; [|intros e b' H; discriminate].
    split; [|discriminate]. intros H. apply Hnf in H. congruence.
  - split; [|intros e b' H; discriminate].
    split; [|discriminate]. intros H. apply Hnf in H. congruence.
Qed.

(** X2. A successful byte patch rewrites one buffer in place and nothing else:
    header, symbols and every other command are as before; the patched
    command is the segment that covers the address, with its name, ranges
    and sections kept and a buffer of the same length that holds [bytes] at
    the local offset and the old bytes everywhere else. *)
Theorem patch_address_frame (a : Z) (bytes : list Z) (b b' : Binary) :
  patch_address a bytes b = (Ok tt, b') ->
  header_ b' = header_ b /\ symbols_ b' = symbols_ b /\
  is64_ b' = is64_ b /\ length (commands_ b') = length (commands_ b) /\
  exists i seg seg',
    segment_from_virtual_address a b = Ok (i, seg) /\
    commands_ b' !! i = Some (CmdSegment seg') /\
    (forall j, j <> i -> commands_ b' !! j = commands_ b !! j) /\
    SegmentCommand.name seg' = SegmentCommand.name seg /\
    SegmentCommand.virtual_address seg' = SegmentCommand.virtual_address seg /\
    SegmentCommand.virtual_size seg' = SegmentCommand.virtual_size seg /\
    SegmentCommand.file_offset seg' = SegmentCommand.file_offset seg /\
    SegmentCommand.file_size seg' = SegmentCommand.file_size seg /\
    SegmentCommand.sections seg' = SegmentCommand.sections seg /\
    length (SegmentCommand.content seg') = length (SegmentCommand.content seg) /\
    (forall k : nat,
       (k < length bytes)%nat ->
       SegmentCommand.content seg'
         !! (Z.to_nat (sub64 a (SegmentCommand.virtual_address seg)) + k)%nat
       = bytes !! k) /\
    (forall j : nat,
       (Z.of_nat j < sub64 a (SegmentCommand.virtual_address seg) \/
        sub64 a (SegmentCommand.virtual_address seg) + Z.of_nat (length bytes)
          <= Z.of_nat j) ->
       SegmentCommand.content seg' !! j = SegmentCommand.content seg !! j).
Proof.
  intros H. apply patch_address_Ok_inv in H as (i & seg & Hseg & Hi & Hland & ->).
  pose proof (sub64_range a (SegmentCommand.virtual_address seg)) as Hoff.
  cbn [with_commands header_ symbols_ is64_ commands_].
  split; [reflexivity|]. split; [reflexivity|]. split; [reflexivity|].
  split; [apply length_insert|].
  eexists i, seg, _. split; [exact Hseg|].
  split; [apply list_lookup_insert_eq; now apply lookup_lt_Some in Hi|].
  split; [intros j Hj; now apply list_lookup_insert_ne|].
  cbn [SegmentCommand.set_content SegmentCommand.name
       SegmentCommand.virtual_address SegmentCommand.virtual_size
       SegmentCommand.file_offset SegmentCommand.file_size
       SegmentCommand.sections SegmentCommand.content].
  do 6 (split; [reflexivity|]).
  destruct Hland as [->|Hfit].
  - rewrite overwrite_nil. split; [reflexivity|]. split.
    + intros k Hk. simpl in Hk. lia.
    + reflexivity.
  - assert (Hnat : (Z.to_nat (sub64 a (SegmentCommand.virtual_address seg))
                    + length bytes
                    <= length (SegmentCommand.content seg))%nat) by lia.
    split; [now apply overwrite_length|]. split.
    + intros k Hk. now apply overwrite_lookup_inside.
    + intros j Hj. apply overwrite_lookup_outside; lia.
Qed.

Lemma patch_address_frame_witness :
  exists b',
    patch_address 0x100000010 [0xde; 0xad] sample = (Ok tt, b') /\
    header_ b' = sample_header /\
    commands_ b' !! 3%nat = Some (CmdSegment data_segment).
Proof.
  destruct (patch_address 0x100000010 [0xde; 0xad] sample) as [r b'] eqn:E.
  assert (Hr : r = Ok tt) by (vm_compute in E; congruence). subst r.
  destruct (patch_address_frame _ _ _ _ E)
    as (Hh & _ & _ & _ & i & seg & seg' & Hseg & _ & Hother & _).
  exists b'. split; [reflexivity|]. split; [exact Hh|].
  assert (i = 1%nat) as -> by (vm_compute in Hseg; congruence).
  now rewrite Hother by discriminate.
Defined.

(** A read that lies inside the buffer returns just the bytes asked for. *)
Lemma get_content_fits (a size : Z) (b : Binary) (i : nat)
    (seg : SegmentCommand.t) :
  segment_from_virtual_address a b = Ok (i, seg) ->
  0 <= size ->
  sub64 a (SegmentCommand.virtual_address seg) + size
    <= Z.of_nat (length (SegmentCommand.content seg)) ->
  get_content_from_virtual_address a size b =
  Ok (take (Z.to_nat size)
        (drop (Z.to_nat (sub64 a (SegmentCommand.virtual_address seg)))
              (SegmentCommand.content seg))).
Proof.
  intros Hseg Hsize Hfit.
  pose proof (sub64_range a (SegmentCommand.virtual_address seg)) as Hoff.
  unfold get_content_from_virtual_address. rewrite Hseg.
  set (off := sub64 a (SegmentCommand.virtual_address seg)) in *.
  set (content := SegmentCommand.content seg) in *.
  cbv zeta.
  assert (Hadd : add64 off size <= off + size).
  { unfold add64, wrap64. apply Z.mod_le; lia. }
  rewrite (proj2 (Z.ltb_ge _ _)) by lia.
  unfold vector_from_range.
  rewrite (proj2 (Z.leb_le off (off + size))) by lia.
  rewrite (proj2 (Z.leb_le (off + size) _)) by lia.
  simpl. do 2 f_equal. lia.
Qed.

Lemma take_drop_overwrite (content src : list Z) (offset : nat) :
  (offset + length src <= length content)%nat ->
  take (length src) (drop offset (overwrite content offset src)) = src.
Proof.
  intros Hfit. unfold overwrite.
  rewrite drop_app_length' by (rewrite length_take; lia).
  apply take_app_length.
Qed.

Lemma read_back (a : Z) (bytes : list Z) (b b' : Binary) :
  bytes <> [] ->
  patch_address a bytes b = (Ok tt, b') ->
  get_content_from_virtual_address a (Z.of_nat (length bytes)) b' = Ok bytes.
Proof.
  intros Hne H.
  apply patch_address_Ok_inv in H as (i & seg & Hseg & Hi & [->|Hfit] & ->);
    [contradiction|].
  pose proof (sub64_range a (SegmentCommand.virtual_address seg)) as Hoff.
  assert (Hnat : (Z.to_nat (sub64 a (SegmentCommand.virtual_address seg))
                  + length bytes
                  <= length (SegmentCommand.content seg))%nat) by lia.
  rewrite (get_content_fits a _ _ i
             (SegmentCommand.set_content seg
                (overwrite (SegmentCommand.content seg)
                   (Z.to_nat (sub64 a (SegmentCommand.virtual_address seg)))
                   bytes))).
  - cbn [SegmentCommand.set_content SegmentCommand.virtual_address
         SegmentCommand.content].
    rewrite Nat2Z.id. f_equal. now apply take_drop_overwrite.
  - now apply segment_from_virtual_address_set_content.
  - lia.
  - cbn [SegmentCommand.set_content SegmentCommand.virtual_address
         SegmentCommand.content].
    rewrite overwrite_length by exact Hnat. exact Hfit.
Qed.

(** X3. Write, then read: after a successful [patch_address(address, bytes)]
    of at least one byte,
    [get_content_from_virtual_address(address, bytes.size())] returns
    [bytes].  (An empty patch succeeds at every covered address, also where
    no buffer backs the address and a read of zero bytes does not return.) *)
Theorem patch_address_read_back (a : Z) (bytes : list Z) (b b' : Binary) :
  bytes <> [] ->
  patch_address a bytes b = (Ok tt, b') ->
  get_content_from_virtual_address a (Z.of_nat (length bytes)) b' = Ok bytes.
Proof.
  intros Hne H. exact (read_back a bytes b b' Hne H).
Qed.

Lemma patch_address_read_back_witness :
  get_content_from_virtual_address 0x100000010 2
    (snd (patch_address 0x100000010 [0xde; 0xad] sample))
  = Ok [0xde; 0xad].
Proof.
  apply (patch_address_read_back 0x100000010 [0xde; 0xad] sample).
  - discriminate.
  - reflexivity.
Defined.

Lemma little_endian_object_bytes (value : Z) (start n : nat) :
  little_endian (map (byte_of value) (seq start n))
  = (value / 2 ^ (8 * Z.of_nat start)) mod 2 ^ (8 * Z.of_nat n).
Proof.
  revert start. induction n as [|n IH]; intros start.
  - simpl. now rewrite Z.mod_1_r.
  - cbn [seq map little_endian]. rewrite IH, byte_of_div_mod.
    replace (8 * Z.of_nat (S n)) with (8 + 8 * Z.of_nat n) by lia.
    replace (8 * Z.of_nat (S start)) with (8 * Z.of_nat start + 8) by lia.
    rewrite !Z.pow_add_r by lia.
    rewrite <- Z.div_div by lia.
    change (2 ^ 8) with 256.
    symmetry. apply Z.rem_mul_r; lia.
Qed.

(** X4. Scalar write, then read: after a successful
    [patch_address(address, value, size)] with [size > 0] the [size] bytes
    read back at the address are, low byte first, the number
    [value mod 2^(8*size)]. *)
Theorem patch_address_value_read_back (a value size : Z) (b b' : Binary) :
  0 < size ->
  patch_address_value a value size b = (Ok tt, b') ->
  size <= 8 /\
  exists bytes,
    get_content_from_virtual_address a size b' = Ok bytes /\
    Z.of_nat (length bytes) = size /\
    little_endian bytes = value mod 2 ^ (8 * size).
Proof.
  intros Hsize. rewrite patch_address_value_body. unfold sizeof_uint64.
  destruct (8 <? size) eqn:Hsz; [discriminate|].
  apply Z.ltb_ge in Hsz. rewrite <- patch_address_body. intros H.
  split; [exact Hsz|]. exists (object_bytes value size).
  apply read_back in H.
  - rewrite object_bytes_length, Z2Nat.id in H by lia.
    split; [exact H|]. split.
    + rewrite object_bytes_length. lia.
    + unfold object_bytes. rewrite little_endian_object_bytes.
      rewrite Z2Nat.id by lia. simpl (8 * Z.of_nat 0). now rewrite Z.div_1_r.
  - intros Hnil. apply (f_equal (@length Z)) in Hnil.
    rewrite object_bytes_length in Hnil. simpl in Hnil. lia.
Qed.

Lemma patch_address_value_read_back_witness :
  exists bytes,
    get_content_from_virtual_address 0x100000010 2
      (snd (patch_address_value 0x100000010 0x12345678 2 sample)) = Ok bytes /\
    little_endian bytes = 0x5678.
Proof.
  destruct (patch_address_value_read_back 0x100000010 0x12345678 2 sample
              (snd (patch_address_value 0x100000010 0x12345678 2 sample)))
    as (_ & bytes & Hread & _ & Hval).
  - lia.
  - reflexivity.
  - exists bytes. split; [exact Hread|]. rewrite Hval. reflexivity.
Defined.

Lemma overwrite_overwrite (content s1 s2 : list Z) (offset : nat) :
  s1 = [] \/ (offset + length s1 <= length content)%nat ->
  length s2 = length s1 ->
  overwrite (overwrite content offset s1) offset s2
  = overwrite content offset s2.
Proof.
  intros [->|Hfit] Hlen.
  { destruct s2; [|discriminate]. now rewrite !overwrite_nil. }
  unfold overwrite at 1 3.
  assert (Htake : length (take offset content) = offset)
    by (rewrite length_take; lia).
  f_equal; [|f_equal].
  - unfold overwrite. now rewrite take_app_length'.
  - unfold overwrite. rewrite app_assoc, Hlen.
    rewrite drop_app_length'; [reflexivity|].
    rewrite length_app. lia.
Qed.

Lemma overwrite_comm (content s1 s2 : list Z) (o1 o2 : nat) :
  (o1 + length s1 <= length content)%nat ->
  (o2 + length s2 <= length content)%nat ->
  (o1 + length s1 <= o2)%nat \/ (o2 + length s2 <= o1)%nat ->
  overwrite (overwrite content o1 s1) o2 s2
  = overwrite (overwrite content o2 s2) o1 s1.
Proof.
  intros H1 H2 Hdisj.
  assert (L1 : length (overwrite content o1 s1) = length content)
    by now apply overwrite_length.
  assert (L2 : length (overwrite content o2 s2) = length content)
    by now apply overwrite_length.
  apply list_eq. intros j.
  destruct (decide (o1 <= j < o1 + length s1)%nat) as [In1|Out1].
  - replace j with (o1 + (j - o1))%nat at 2 by lia.
    rewrite (overwrite_lookup_inside (overwrite content o2 s2)) by lia.
    rewrite overwrite_lookup_outside by lia.
    replace j with (o1 + (j - o1))%nat at 1 by lia.
    now rewrite overwrite_lookup_inside by lia.
  - rewrite (overwrite_lookup_outside (overwrite content o2 s2) s1 o1)
      by lia.
    destruct (decide (o2 <= j < o2 + length s2)%nat) as [In2|Out2].
    + replace j with (o2 + (j - o2))%nat by lia.
      now rewrite !overwrite_lookup_inside by lia.
    + rewrite !overwrite_lookup_outside by lia. reflexivity.
Qed.

Lemma set_content_set_content (s : SegmentCommand.t) (d1 d2 : list Z) :
  SegmentCommand.set_content (SegmentCommand.set_content s d1) d2
  = SegmentCommand.set_content s d2.
Proof. reflexivity. Qed.

(** The state a patch of the segment [seg] at index [i] leaves, applied to a
    state in which that segment already carries another buffer. *)
Lemma write_segment_over (a : Z) (src data : list Z) (b : Binary) (i : nat)
    (seg : SegmentCommand.t) :
  segment_from_virtual_address a b = Ok (i, seg) ->
  src = [] \/
  sub64 a (SegmentCommand.virtual_address seg) + Z.of_nat (length src)
    <= Z.of_nat (length data) ->
  write_segment a src
    (with_commands b
       (<[i := CmdSegment (SegmentCommand.set_content seg data)]>
          (commands_ b)))
  = (Ok tt,
     with_commands b
       (<[i := CmdSegment
                 (SegmentCommand.set_content seg
                    (overwrite data
                       (Z.to_nat (sub64 a (SegmentCommand.virtual_address seg)))
                       src))]>
          (commands_ b))).
Proof.
  intros Hseg Hfit.
  rewrite (write_segment_lands a src _ i (SegmentCommand.set_content seg data)).
  - unfold with_commands. cbn [is64_ header_ commands_ symbols_].
    now rewrite list_insert_insert_eq.
  - now apply segment_from_virtual_address_set_content.
  - exact Hfit.
Qed.

(** X5. The last write wins: a second patch of the same length at the same
    address overrides the first, as if the first had not happened. *)
Theorem patch_address_last_wins (a : Z) (first second : list Z)
    (b b1 : Binary) :
  patch_address a first b = (Ok tt, b1) ->
  length second = length first ->
  patch_address a second b1 = patch_address a second b /\
  exists b2, patch_address a second b = (Ok tt, b2).
Proof.
  intros H Hlen.
  apply patch_address_Ok_inv in H as (i & seg & Hseg & Hi & Hland & ->).
  pose proof (sub64_range a (SegmentCommand.virtual_address seg)) as Hoff.
  assert (Hland2 : second = [] \/
            sub64 a (SegmentCommand.virtual_address seg)
              + Z.of_nat (length second)
              <= Z.of_nat (length (SegmentCommand.content seg))).
  { destruct Hland as [->|Hfit]; [left|right; lia].
    now destruct second. }
  rewrite !patch_address_body.
  rewrite (write_segment_lands a second b i seg Hseg Hland2).
  rewrite (write_segment_over a second _ b i seg Hseg).
  - rewrite overwrite_overwrite; [eauto| |exact Hlen].
    destruct Hland as [->|Hfit]; [now left|right; lia].
  - destruct Hland as [->|Hfit].
    + rewrite overwrite_nil. destruct second; [now left|discriminate].
    + right. rewrite overwrite_length by lia. lia.
Qed.

Lemma patch_address_last_wins_witness :
  patch_address 0x100000010 [1; 2]
    (snd (patch_address 0x100000010 [0xde; 0xad] sample))
  = patch_address 0x100000010 [1; 2] sample.
Proof.
  apply (patch_address_last_wins 0x100000010 [0xde; 0xad] [1; 2] sample);
    reflexivity.
Defined.

Lemma write_segment_other (a : Z) (src data : list Z) (b : Binary)
    (i j : nat) (seg other : SegmentCommand.t) :
  segment_from_virtual_address a b = Ok (i, seg) ->
  commands_ b !! j = Some (CmdSegment other) ->
  i <> j ->
  sub64 a (SegmentCommand.virtual_address seg) + Z.of_nat (length src)
    <= Z.of_nat (length (SegmentCommand.content seg)) ->
  write_segment a src
    (with_commands b
       (<[j := CmdSegment (SegmentCommand.set_content other data)]>
          (commands_ b)))
  = (Ok tt,
     with_commands b
       (<[i := CmdSegment
                 (SegmentCommand.set_content seg
                    (overwrite (SegmentCommand.content seg)
                       (Z.to_nat (sub64 a (SegmentCommand.virtual_address seg)))
                       src))]>
          (<[j := CmdSegment (SegmentCommand.set_content other data)]>
             (commands_ b)))).
Proof.
  intros Hseg Hj Hne Hfit.
  rewrite (write_segment_fits a src _ i seg); [reflexivity| |exact Hfit].
  rewrite (segment_from_virtual_address_after b j other data Hj), Hseg.
  simpl. unfold with_content_at. simpl. now rewrite decide_False.
Qed.

(** X6. Two byte patches that touch different segments, or ranges of one
    segment that do not overlap, can be applied in either order: both orders
    succeed and leave the same binary. *)
Theorem patch_address_commute (a1 a2 : Z) (s1 s2 : list Z) (b : Binary)
    (i1 i2 : nat) (seg1 seg2 : SegmentCommand.t) :
  segment_from_virtual_address a1 b = Ok (i1, seg1) ->
  segment_from_virtual_address a2 b = Ok (i2, seg2) ->
  sub64 a1 (SegmentCommand.virtual_address seg1) + Z.of_nat (length s1)
    <= Z.of_nat (length (SegmentCommand.content seg1)) ->
  sub64 a2 (SegmentCommand.virtual_address seg2) + Z.of_nat (length s2)
    <= Z.of_nat (length (SegmentCommand.content seg2)) ->
  (i1 <> i2 \/
   sub64 a1 (SegmentCommand.virtual_address seg1) + Z.of_nat (length s1)
     <= sub64 a2 (SegmentCommand.virtual_address seg2) \/
   sub64 a2 (SegmentCommand.virtual_address seg2) + Z.of_nat (length s2)
     <= sub64 a1 (SegmentCommand.virtual_address seg1)) ->
  exists b',
    (let* _ := patch_address a1 s1 in patch_address a2 s2) b = (Ok tt, b') /\
    (let* _ := patch_address a2 s2 in patch_address a1 s1) b = (Ok tt, b').
Proof.
  intros Hseg1 Hseg2 Hfit1 Hfit2 Hdisj.
  destruct (segment_from_virtual_address_Ok _ _ _ _ Hseg1) as [Hi1 _].
  destruct (segment_from_virtual_address_Ok _ _ _ _ Hseg2) as [Hi2 _].
  pose proof (sub64_range a1 (SegmentCommand.virtual_address seg1)) as Ho1.
  pose proof (sub64_range a2 (SegmentCommand.virtual_address seg2)) as Ho2.
  rewrite (patch_address_body a1 s1), (patch_address_body a2 s2).
  unfold bind.
  rewrite (write_segment_fits _ _ _ _ _ Hseg1 Hfit1).
  rewrite (write_segment_fits _ _ _ _ _ Hseg2 Hfit2).
  destruct (decide (i1 = i2)) as [->|Hne].
  - assert (seg1 = seg2) as -> by congruence.
    rewrite (write_segment_over a2 s2 _ b i2 seg2 Hseg2)
      by (rewrite overwrite_length by lia; lia).
    rewrite (write_segment_over a1 s1 _ b i2 seg2 Hseg1)
      by (rewrite overwrite_length by lia; lia).
    eexists. split; [reflexivity|].
    rewrite (overwrite_comm (SegmentCommand.content seg2) s2 s1); [reflexivity|lia|lia|].
    destruct Hdisj as [H|[H|H]]; [congruence|right; lia|left; lia].
  - rewrite (write_segment_other a2 s2 _ b i2 i1 seg2 seg1 Hseg2 Hi1)
      by (congruence || exact Hfit2).
    rewrite (write_segment_other a1 s1 _ b i1 i2 seg1 seg2 Hseg1 Hi2)
      by (congruence || exact Hfit1).
    eexists. split; [reflexivity|].
    unfold with_commands. cbn [is64_ header_ commands_ symbols_].
    now rewrite list_insert_insert_ne by congruence.
Qed.

Lemma patch_address_commute_witness :
  (let* _ := patch_address 0x100000010 [0xde; 0xad] in
   patch_address 0x100002004 [0xbe; 0xef]) sample
  = (let* _ := patch_address 0x100002004 [0xbe; 0xef] in
     patch_address 0x100000010 [0xde; 0xad]) sample.
Proof.
  destruct (patch_address_commute 0x100000010 0x100002004
              [0xde; 0xad] [0xbe; 0xef] sample
              1%nat 3%nat text_segment data_segment)
    as (b' & H1 & H2).
  - reflexivity.
  - reflexivity.
  - vm_compute. discriminate.
  - vm_compute. discriminate.
  - left. discriminate.
  - now rewrite H1, H2.
Defined.

(** X7. A successful byte patch does not move anything: image base, entry
    point, loader, address translation, the segment and section a lookup
    finds, the libraries and the sections are the same before and after. *)
Theorem patch_address_keeps_resolution (a : Z) (bytes : list Z)
    (b b' : Binary) :
  patch_address a bytes b = (Ok tt, b') ->
  imagebase b' = imagebase b /\
  entrypoint b' = entrypoint b /\
  get_loader b' = get_loader b /\
  (forall x, virtual_address_to_offset x b' = virtual_address_to_offset x b) /\
  (forall x, result_map fst (segment_from_virtual_address x b')
             = result_map fst (segment_from_virtual_address x b)) /\
  (forall x, result_map fst (segment_from_offset x b')
             = result_map fst (segment_from_offset x b)) /\
  (forall x, section_from_offset x b' = section_from_offset x b) /\
  sections b' = sections b /\
  libraries b' = libraries b.
Proof.
  intros H. apply patch_address_Ok_inv in H as (i & seg & _ & Hi & _ & ->).
  assert (Hfst : forall d (r : result (nat * SegmentCommand.t)),
            result_map fst (result_map (with_content_at i d) r)
            = result_map fst r).
  { intros d [[j s]|e|]; simpl; try reflexivity.
    unfold with_content_at. simpl. now destruct (decide (j = i)). }
  split; [now apply imagebase_after|].
  split; [now apply entrypoint_after|].
  split; [now apply get_loader_after|].
  split; [intros x; now apply virtual_address_to_offset_after|].
  split; [intros x; rewrite segment_from_virtual_address_after by exact Hi;
          apply Hfst|].
  split; [intros x; rewrite segment_from_offset_after by exact Hi;
          apply Hfst|].
  split; [intros x; unfold section_from_offset;
          now rewrite sections_after by exact Hi|].
  split; [now apply sections_after|now apply libraries_after].
Qed.

Lemma patch_address_keeps_resolution_witness :
  entrypoint (snd (patch_address 0x100000010 [0xde; 0xad] sample))
  = entrypoint sample.
Proof.
  apply (patch_address_keeps_resolution 0x100000010 [0xde; 0xad] sample).
  reflexivity.
Defined.

(** ** Reading content *)

Lemma wrap64_once_down (z : Z) : 2 ^ 64 <= z < 2 * 2 ^ 64 ->
  wrap64 z = z - 2 ^ 64.
Proof.
  intros H. unfold wrap64. symmetry.
  apply (Z.mod_unique_pos z (2 ^ 64) 1); lia.
Qed.

Lemma get_content_Ok_inv (a size : Z) (b : Binary) (bytes : list Z) :
  0 <= size < 2 ^ 64 ->
  get_content_from_virtual_address a size b = Ok bytes ->
  exists i seg,
    segment_from_virtual_address a b = Ok (i, seg) /\
    sub64 a (SegmentCommand.virtual_address seg)
      <= Z.of_nat (length (SegmentCommand.content seg)) /\
    bytes = take (Z.to_nat size)
              (drop (Z.to_nat (sub64 a (SegmentCommand.virtual_address seg)))
                    (SegmentCommand.content seg)) /\
    Z.of_nat (length bytes)
      = Z.min size
          (Z.of_nat (length (SegmentCommand.content seg))
           - sub64 a (SegmentCommand.virtual_address seg)).
Proof.
  intros Hsize. unfold get_content_from_virtual_address.
  destruct (segment_from_virtual_address a b) as [[i seg]|e|] eqn:Hseg;
    try discriminate.
  pose proof (sub64_range a (SegmentCommand.virtual_address seg)) as Hoff.
  set (off := sub64 a (SegmentCommand.virtual_address seg)) in *.
  set (content := SegmentCommand.content seg) in *.
  cbv zeta. unfold vector_from_range.
  match goal with
  | |- context [off + ?c] => set (checked := c)
  end.
  destruct ((off <=? off + checked) && (off + checked <=? Z.of_nat (length content)))
    eqn:Hin; [|discriminate].
  apply andb_true_iff in Hin as [Hlo Hhi].
  apply Z.leb_le in Hlo, Hhi. intros [= <-].
  exists i, seg. split; [reflexivity|].
  replace (off + checked - off) with checked by lia.
  assert (Hchecked : checked = Z.min size (Z.of_nat (length content) - off)).
  { unfold checked in *. clear checked.
    destruct (Z.of_nat (length content) <? add64 off size) eqn:Hover.
    - apply Z.ltb_lt in Hover.
      pose proof (sub64_range size (sub64 (add64 off size)
                                      (Z.of_nat (length content)))) as Hc.
      destruct (Z_lt_ge_dec (off + size) (2 ^ 64)) as [Hnw|Hw].
      + rewrite (add64_small off size) in * by lia.
        rewrite (sub64_small (off + size)) in * by lia.
        rewrite sub64_small in * by lia. lia.
      + exfalso. unfold add64 in *.
        rewrite (wrap64_once_down (off + size)) in * by lia. lia.
    - apply Z.ltb_ge in Hover.
      assert (add64 off size = off + size \/ add64 off size = off + size - 2 ^ 64)
        as [E|E].
      { destruct (Z_lt_ge_dec (off + size) (2 ^ 64)).
        - left. apply add64_small. lia.
        - right. apply wrap64_once_down. lia. }
      + lia.
      + lia. }
  assert (HoffL : off <= Z.of_nat (length content)) by lia.
  rewrite Hchecked. clear Hchecked Hlo Hhi. subst checked.
  fold content. fold off.
  split; [exact HoffL|]. split.
  - destruct (Z.min_spec size (Z.of_nat (length content) - off))
      as [[_ ->]|[Hle ->]]; [reflexivity|].
    rewrite !take_ge; [reflexivity| |]; rewrite length_drop; lia.
  - rewrite length_take, length_drop. lia.
Qed.

(** X8. Whenever [get_content_from_virtual_address] returns, it returns the
    bytes of the covering segment's buffer from the local offset on, cut
    after [size] bytes or at the end of the buffer, whichever comes first;
    it never returns more than [size] bytes. *)
Theorem get_content_returns (a size : Z) (b : Binary) (bytes : list Z) :
  0 <= size < 2 ^ 64 ->
  get_content_from_virtual_address a size b = Ok bytes ->
  exists i seg,
    segment_from_virtual_address a b = Ok (i, seg) /\
    sub64 a (SegmentCommand.virtual_address seg)
      <= Z.of_nat (length (SegmentCommand.content seg)) /\
    bytes = take (Z.to_nat size)
              (drop (Z.to_nat (sub64 a (SegmentCommand.virtual_address seg)))
                    (SegmentCommand.content seg)) /\
    Z.of_nat (length bytes)
      = Z.min size
          (Z.of_nat (length (SegmentCommand.content seg))
           - sub64 a (SegmentCommand.virtual_address seg)).
Proof. apply get_content_Ok_inv. Qed.

Lemma get_content_returns_witness :
  exists i seg,
    segment_from_virtual_address 0x100000016 sample = Ok (i, seg) /\
    Z.of_nat (length (repeat 0x90 10))
      = Z.min 100
          (Z.of_nat (length (SegmentCommand.content seg))
           - sub64 0x100000016 (SegmentCommand.virtual_address seg)).
Proof.
  destruct (get_content_returns 0x100000016 100 sample
              (repeat 0x90 10)) as (i & seg & Hseg & _ & _ & Hlen).
  - lia.
  - reflexivity.
  - exists i, seg. split; assumption.
Defined.

(** X9. [get_content_from_virtual_address] throws [not_found] exactly when
    no segment covers the address. *)
Theorem get_content_throws (a size : Z) (b : Binary) :
  get_content_from_virtual_address a size b = Throw not_found <->
  Forall (fun r => covers_virtual_address a (snd r) = false) (segments b).
Proof.
  unfold get_content_from_virtual_address, segment_from_virtual_address.
  rewrite <- find_if_None_all.
  destruct (find_if _ _) as [[i seg]|]; cbv zeta.
  - unfold vector_from_range.
    split; [|discriminate]. destruct (_ && _); discriminate.
  - tauto.
Qed.

(** ** Address translation *)

(** X10. [virtual_address_to_offset] never throws anything but
    [conversion_error], and it throws exactly when no segment reaches the
    address with its closed range; in that case
    [segment_from_virtual_address] finds no segment either.  So the
    translation is available wherever the segment lookup succeeds. *)
Theorem virtual_address_to_offset_throws (a : Z) (b : Binary) :
  (virtual_address_to_offset a b = Throw conversion_error <->
   Forall (fun r =>
             ~ (SegmentCommand.virtual_address (snd r) <= a <=
                add64 (SegmentCommand.virtual_address (snd r))
                      (SegmentCommand.virtual_size (snd r))))
     (segments b)) /\
  (forall e, virtual_address_to_offset a b = Throw e ->
     e = conversion_error /\
     segment_from_virtual_address a b = Throw not_found) /\
  virtual_address_to_offset a b <> Undefined /\
  (forall r, segment_from_virtual_address a b = Ok r ->
     exists o, virtual_address_to_offset a b = Ok o).
Proof.
  assert (Hreach : forall l : list (nat * SegmentCommand.t),
    Forall (fun r => reaches_virtual_address a (snd r) = false) l <->
    Forall (fun r =>
              ~ (SegmentCommand.virtual_address (snd r) <= a <=
                 add64 (SegmentCommand.virtual_address (snd r))
                       (SegmentCommand.virtual_size (snd r)))) l).
  { intros l. apply Forall_iff. intros r. unfold reaches_virtual_address.
    rewrite andb_false_iff, Z.leb_gt, Z.leb_gt. lia. }
  assert (Hcov : find_if (fun r => reaches_virtual_address a (snd r))
                   (segments b) = None ->
                 find_if (fun r => covers_virtual_address a (snd r))
                   (segments b) = None).
  { rewrite !find_if_None_all. intros H. eapply Forall_impl; [exact H|].
    intros r. unfold reaches_virtual_address, covers_virtual_address.
    rewrite !andb_false_iff, !Z.leb_gt, Z.ltb_ge. lia. }
  unfold virtual_address_to_offset, segment_from_virtual_address.
  rewrite <- Hreach, <- find_if_None_all.
  destruct (find_if (fun r => reaches_virtual_address a (snd r)) (segments b))
    as [[i s]|] eqn:E.
  - split; [split; discriminate|]. split; [discriminate|].
    split; [discriminate|]. eauto.
  - rewrite (Hcov eq_refl).
    split; [tauto|]. split; [now intros e [= <-]|].
    split; discriminate.
Qed.

(** X11. At an address that a segment covers and that is not the end address of
    any segment, the translation is the segment's file offset plus the
    distance of the address from the segment's start. *)
Theorem virtual_address_to_offset_inside (a : Z) (b : Binary) (i : nat)
    (seg : SegmentCommand.t) :
  segment_from_virtual_address a b = Ok (i, seg) ->
  (forall r, r ∈ segments b ->
     a <> add64 (SegmentCommand.virtual_address (snd r))
                (SegmentCommand.virtual_size (snd r))) ->
  0 <= SegmentCommand.file_offset seg ->
  SegmentCommand.file_offset seg + (a - SegmentCommand.virtual_address seg)
    < 2 ^ 64 ->
  virtual_address_to_offset a b
  = Ok (SegmentCommand.file_offset seg
        + (a - SegmentCommand.virtual_address seg)).
Proof.
  intros Hseg Hend Hfo Hhi.
  destruct (segment_from_virtual_address_Ok _ _ _ _ Hseg) as [_ Hcov].
  apply covers_virtual_address_iff in Hcov.
  rewrite (virtual_address_to_offset_agrees _ _ Hend).
  unfold virtual_address_to_offset_spec. rewrite Hseg. f_equal.
  unfold sub64, wrap64. rewrite Zminus_mod_idemp_r.
  rewrite Z.mod_small by lia. lia.
Qed.

Lemma virtual_address_to_offset_inside_witness :
  virtual_address_to_offset 0x100002010 sample = Ok 0x2010.
Proof.
  apply (virtual_address_to_offset_inside 0x100002010 sample 3%nat
           data_segment).
  - reflexivity.
  - intros r Hr. apply list_elem_of_In in Hr. vm_compute in Hr.
    intuition (subst; vm_compute; discriminate).
  - vm_compute. discriminate.
  - reflexivity.
Defined.

(** ** Header flag *)

(** X12. After [disable_pie] the flag is gone: a second call returns [false] and
    changes nothing, whatever the first call returned; and the first call
    returns whether the flag was set. *)
Theorem disable_pie_twice (b : Binary) :
  fst (disable_pie b) = Ok (Header.has_flag (header_ b) MH_PIE) /\
  Header.has_flag (header_ (snd (disable_pie b))) MH_PIE = false /\
  disable_pie (snd (disable_pie b)) = (Ok false, snd (disable_pie b)).
Proof.
  assert (Hoff : forall b1, Header.has_flag (header_ b1) MH_PIE = false ->
                            disable_pie b1 = (Ok false, b1)).
  { intros b1 H. unfold disable_pie. now rewrite H. }
  destruct (disable_pie b) as [r b1] eqn:E. unfold disable_pie in E.
  destruct (Header.has_flag (header_ b) MH_PIE) eqn:Hflag;
    injection E as <- <-; cbn [fst snd].
  - assert (H : Header.has_flag (Header.remove_flag (header_ b) MH_PIE) MH_PIE
                = false) by apply has_flag_remove_flag.
    split; [reflexivity|]. split; [exact H|]. now apply Hoff.
  - split; [reflexivity|]. split; [exact Hflag|]. now apply Hoff.
Qed.

(** ** Loader *)

(** X13. [get_loader] returns the name of the first LC_LOAD_DYLINKER command and
    throws [not_found] exactly when there is none. *)
Theorem get_loader_first (b : Binary) :
  (forall pre dylinker post,
     commands_ b = pre ++ CmdDylinker dylinker :: post ->
     Forall (fun c => command c <> LC_LOAD_DYLINKER) pre ->
     get_loader b = Ok (DylinkerCommand.name dylinker)) /\
  (Forall (fun c => command c <> LC_LOAD_DYLINKER) (commands_ b) <->
   get_loader b = Throw not_found) /\
  (forall e, get_loader b = Throw e -> e = not_found) /\
  get_loader b <> Undefined.
Proof.
  assert (Htag : forall l,
    Forall (fun c => command c <> LC_LOAD_DYLINKER) l <->
    Forall (fun c => is_LC_LOAD_DYLINKER (command c) = false) l).
  { intros l. apply Forall_iff. intros c.
    destruct (command c); simpl; split; congruence. }
  unfold get_loader. split; [|rewrite Htag, <- find_if_None_all].
  - intros pre d post Heq Hpre.
    assert (E : find_if (fun c => is_LC_LOAD_DYLINKER (command c))
                  (commands_ b) = Some (CmdDylinker d)).
    { apply find_if_Some_split. exists pre, post.
      split; [exact Heq|]. split; [now apply Htag|reflexivity]. }
    now rewrite E.
  - destruct (find_if _ _) as [c|] eqn:E.
    + apply find_if_in in E as [_ Hc].
      destruct c; simpl in Hc; try discriminate.
      split; [split; discriminate|]. split; discriminate.
    + split; [tauto|]. split; [now intros e [= <-]|discriminate].
Qed.

Lemma get_loader_first_witness :
  get_loader sample_dylib = Ok "/usr/lib/dyld"%string /\
  get_loader sample = Throw not_found.
Proof.
  split.
  - apply (proj1 (get_loader_first sample_dylib)
             (firstn 2 (commands_ sample_dylib))
             {| DylinkerCommand.name := "/usr/lib/dyld" |}
             (skipn 3 (commands_ sample_dylib))).
    + reflexivity.
    + repeat constructor; discriminate.
  - apply (proj1 (proj2 (get_loader_first sample))).
    repeat constructor; discriminate.
Defined.

(** ** Views *)

Lemma segments_from_length (cmds : list LoadCommand) (k : nat) :
  (length (segments_from k cmds) <= length cmds)%nat.
Proof.
  revert k. induction cmds as [|c tl IH]; intros k; simpl; [lia|].
  specialize (IH (S k)). destruct c; simpl; lia.
Qed.

(** X14. [segments()] lists exactly the segment commands of [commands_], each
    with its position, in command order; commands of other kinds are left
    out. *)
Theorem segments_view (b : Binary) :
  (forall i s, (i, s) ∈ segments b <->
               commands_ b !! i = Some (CmdSegment s)) /\
  StronglySorted (fun r1 r2 : nat * SegmentCommand.t => (fst r1 < fst r2)%nat)
    (segments b) /\
  (length (segments b) <= length (commands_ b))%nat.
Proof.
  split; [intros i s; apply elem_of_segments|].
  split; [apply segments_from_sorted|apply segments_from_length].
Qed.

Lemma libraries_from_lookup (cmds : list LoadCommand) (k j : nat)
    (d : DylibCommand.t) :
  (j, d) ∈ libraries_from k cmds <->
  (k <= j)%nat /\ cmds !! (j - k)%nat = Some (CmdDylib d).
Proof.
  revert k. induction cmds as [|c tl IH]; intros k; simpl.
  - rewrite elem_of_nil. split; [tauto|]. intros [_ H]. discriminate.
  - assert (Hsplit :
      (k <= j)%nat /\ (c :: tl) !! (j - k)%nat = Some (CmdDylib d) <->
      (j = k /\ c = CmdDylib d) \/ (j, d) ∈ libraries_from (S k) tl).
    { rewrite IH. destruct (decide (j = k)) as [->|Hne].
      - rewrite Nat.sub_diag. simpl. split.
        + intros [_ [= ->]]. now left.
        + intros [[_ ->]|[Hlt _]]; [split; [lia|reflexivity]|exfalso; lia].
      - destruct (decide (k < j)%nat) as [Hlt|Hge].
        + replace (j - k)%nat with (S (j - S k)) by lia. simpl. split.
          * intros [Hle H]. right. split; [lia|exact H].
          * intros [[Hjk _]|[Hle H]]; [contradiction|]. split; [lia|exact H].
        + split.
          * intros [Hle _]. exfalso. lia.
          * intros [[Hjk _]|[Hle _]]; [contradiction|exfalso; lia]. }
    rewrite Hsplit.
    destruct c as [|d0| | |]; try (split; [now right|];
      intros [[_ Hc]|H]; [discriminate|exact H]).
    rewrite elem_of_cons. split.
    + intros [[= -> ->]|H]; [left; auto|now right].
    + intros [[-> [= ->]]|H]; [now left|now right].
Qed.

Lemma libraries_from_sorted (cmds : list LoadCommand) (k : nat) :
  StronglySorted (fun r1 r2 : nat * DylibCommand.t => (fst r1 < fst r2)%nat)
    (libraries_from k cmds).
Proof.
  revert k. induction cmds as [|c tl IH]; intros k; simpl; [constructor|].
  destruct c; try apply IH.
  constructor; [apply IH|].
  apply Forall_forall. intros [j d'] Hin.
  apply libraries_from_lookup in Hin as [Hle _]. simpl. lia.
Qed.

Lemma libraries_from_names (cmds : list LoadCommand) (k : nat) :
  map (fun lib => DylibCommand.name (snd lib)) (libraries_from k cmds)
  = flat_map (fun c => match c with
                       | CmdDylib d => [DylibCommand.name d]
                       | _ => []
                       end) cmds.
Proof.
  revert k. induction cmds as [|c tl IH]; intros k; simpl; [reflexivity|].
  destruct c; simpl; now rewrite IH.
Qed.

(** X15. [libraries()] lists exactly the dylib commands of [commands_], each
    once with its position, in command order (the positions go up strictly);
    [get_abstract_imported_libraries] is the list of their names in that
    order, one entry for each dylib command of the command sequence and
    none for any other command. *)
Theorem libraries_view (b : Binary) :
  (forall i d, (i, d) ∈ libraries b <->
               commands_ b !! i = Some (CmdDylib d)) /\
  StronglySorted (fun r1 r2 : nat * DylibCommand.t => (fst r1 < fst r2)%nat)
    (libraries b) /\
  get_abstract_imported_libraries b
  = flat_map (fun c => match c with
                       | CmdDylib d => [DylibCommand.name d]
                       | _ => []
                       end) (commands_ b) /\
  (forall name : string,
     name ∈ get_abstract_imported_libraries b <->
     exists i d, commands_ b !! i = Some (CmdDylib d) /\
                 DylibCommand.name d = name).
Proof.
  assert (Hlib : forall i d, (i, d) ∈ libraries b <->
                             commands_ b !! i = Some (CmdDylib d)).
  { intros i d. unfold libraries.
    rewrite libraries_from_lookup, Nat.sub_0_r.
    split; [tauto|]. intros H. split; [lia|exact H]. }
  split; [exact Hlib|].
  split; [apply libraries_from_sorted|].
  split; [apply libraries_from_names|].
  intros name. unfold get_abstract_imported_libraries.
  rewrite list_elem_of_In, in_map_iff. split.
  - intros ([i d] & Hname & Hin). exists i, d.
    split; [|exact Hname]. now apply Hlib, list_elem_of_In.
  - intros (i & d & Hi & Hname). exists (i, d).
    split; [exact Hname|]. now apply list_elem_of_In, Hlib.
Qed.

(** X16. [sections()] holds exactly the sections of the segment commands. *)
Theorem sections_view (b : Binary) (s : MachOSection.t) :
  s ∈ sections b <->
  exists i seg,
    commands_ b !! i = Some (CmdSegment seg) /\
    s ∈ SegmentCommand.sections seg.
Proof.
  unfold sections. rewrite list_elem_of_In, in_flat_map. split.
  - intros ([i seg] & Hin & Hs). exists i, seg.
    split; [now apply elem_of_segments, list_elem_of_In|].
    now apply list_elem_of_In.
  - intros (i & seg & Hi & Hs). exists (i, seg).
    split; [now apply list_elem_of_In, elem_of_segments|].
    now apply list_elem_of_In.
Qed.

(** X17. [section_from_offset o] returns the first section of the flattened view
    with [offset <= o < offset + size] (upper bound exclusive); the section
    belongs to a segment command of the binary; [not_found] is thrown
    exactly when no section contains the offset. *)
Theorem section_from_offset_first (b : Binary) (o : Z) :
  (forall s,
     section_from_offset o b = Ok s <->
     exists pre post,
       sections b = pre ++ s :: post /\
       Forall (fun s' => ~ (MachOSection.offset s' <= o <
                            add64 (MachOSection.offset s')
                                  (MachOSection.size s'))) pre /\
       MachOSection.offset s <= o <
       add64 (MachOSection.offset s) (MachOSection.size s)) /\
  (section_from_offset o b = Throw not_found <->
   Forall (fun s' => ~ (MachOSection.offset s' <= o <
                        add64 (MachOSection.offset s')
                              (MachOSection.size s'))) (sections b)) /\
  (forall s, section_from_offset o b = Ok s ->
     exists i seg,
       commands_ b !! i = Some (CmdSegment seg) /\
       s ∈ SegmentCommand.sections seg).
Proof.
  assert (Hiff : forall s, section_covers_offset o s = true <->
                 MachOSection.offset s <= o <
                 add64 (MachOSection.offset s) (MachOSection.size s)).
  { intros s. unfold section_covers_offset. rewrite andb_true_iff. lia. }
  assert (Hneg : forall l,
    Forall (fun s' => section_covers_offset o s' = false) l <->
    Forall (fun s' => ~ (MachOSection.offset s' <= o <
                         add64 (MachOSection.offset s')
                               (MachOSection.size s'))) l).
  { intros l. apply Forall_iff. intros s'. rewrite <- Hiff.
    destruct (section_covers_offset o s'); split; congruence. }
  unfold section_from_offset. split; [|split].
  - intros s. split.
    + destruct (find_if _ _) eqn:E; [|discriminate]. intros [= ->].
      apply find_if_Some_split in E as (pre & post & Heq & Hpre & Hx).
      exists pre, post. rewrite <- Hneg, <- Hiff. auto.
    + intros (pre & post & Heq & Hpre & Hx).
      rewrite <- Hneg in Hpre. rewrite <- Hiff in Hx.
      assert (E : find_if (section_covers_offset o) (sections b) = Some s).
      { apply find_if_Some_split. eauto. }
      now rewrite E.
  - rewrite <- Hneg, <- find_if_None_all.
    destruct (find_if _ _); split; congruence.
  - intros s. destruct (find_if _ _) eqn:E; [|discriminate]. intros [= ->].
    apply find_if_in in E as [Hin _]. now apply sections_view.
Qed.

(** X18. Read, then write back: patching an address with the bytes just read
    from it succeeds and leaves the binary exactly as it was.  With
    [size = 0] this is the empty patch. *)
Theorem patch_address_with_content (a size : Z) (b : Binary)
    (bytes : list Z) :
  0 <= size < 2 ^ 64 ->
  get_content_from_virtual_address a size b = Ok bytes ->
  patch_address a bytes b = (Ok tt, b).
Proof.
  intros Hsize H.
  apply get_content_Ok_inv in H as (i & seg & Hseg & Hoff & -> & Hlen);
    [|exact Hsize].
  destruct (segment_from_virtual_address_Ok _ _ _ _ Hseg) as [Hi _].
  pose proof (sub64_range a (SegmentCommand.virtual_address seg)) as Hrange.
  set (off := sub64 a (SegmentCommand.virtual_address seg)) in *.
  set (content := SegmentCommand.content seg) in *.
  set (bytes := take (Z.to_nat size) (drop (Z.to_nat off) content)) in *.
  rewrite patch_address_body.
  rewrite (write_segment_fits a bytes b i seg Hseg) by (fold off content; lia).
  f_equal. fold off content.
  assert (Hsame : overwrite content (Z.to_nat off) bytes = content).
  { unfold overwrite.
    assert (Hb : bytes = take (length bytes) (drop (Z.to_nat off) content)).
    { unfold bytes at 1.
      destruct (Z.min_spec size (Z.of_nat (length content) - off))
        as [[_ E]|[Hle E]]; rewrite E in Hlen.
      - f_equal. lia.
      - rewrite !take_ge; [reflexivity| |]; rewrite length_drop; lia. }
    rewrite <- drop_drop. rewrite Hb at 1.
    now rewrite take_drop, take_drop. }
  rewrite Hsame.
  replace (SegmentCommand.set_content seg content) with seg
    by (subst content; now destruct seg).
  rewrite (list_insert_id _ _ _ Hi). now destruct b.
Qed.

Lemma patch_address_with_content_witness :
  patch_address 0x100000020 [] sample = (Ok tt, sample) /\
  patch_address 0x100000010 [0x90; 0x90; 0x90] sample = (Ok tt, sample).
Proof.
  split.
  - apply (patch_address_with_content 0x100000020 0 sample []);
      [lia|reflexivity].
  - apply (patch_address_with_content 0x100000010 3 sample);
      [lia|reflexivity].
Defined.

(** ** Projections for the format-independent layer *)




(** ** When a patch goes through *)

(** X21. [patch_address(address, bytes)] succeeds exactly when a segment
    covers the address and the bytes are none at all or end inside that
    segment's buffer; the scalar overload succeeds exactly when, in
    addition, [size <= 8]. *)
Theorem patch_succeeds_iff (a : Z) (b : Binary) :
  (forall bytes,
     (exists b', patch_address a bytes b = (Ok tt, b')) <->
     exists i seg,
       segment_from_virtual_address a b = Ok (i, seg) /\
       (bytes = [] \/
        sub64 a (SegmentCommand.virtual_address seg)
          + Z.of_nat (length bytes)
          <= Z.of_nat (length (SegmentCommand.content seg)))) /\
  (forall value size, 0 <= size ->
     (exists b', patch_address_value a value size b = (Ok tt, b')) <->
     size <= 8 /\
     exists i seg,
       segment_from_virtual_address a b = Ok (i, seg) /\
       (size = 0 \/
        sub64 a (SegmentCommand.virtual_address seg) + size
          <= Z.of_nat (length (SegmentCommand.content seg)))).
Proof.
  assert (Hw : forall src,
    (exists b', write_segment a src b = (Ok tt, b')) <->
    exists i seg,
      segment_from_virtual_address a b = Ok (i, seg) /\
      (src = [] \/
       sub64 a (SegmentCommand.virtual_address seg) + Z.of_nat (length src)
         <= Z.of_nat (length (SegmentCommand.content seg)))).
  { intros src. split.
    - intros [b' H].
      destruct (write_segment_cases a src b)
        as [[_ Hc]|(i & seg & Hseg & [[Hland _]|[_ Hc]])];
        try (rewrite Hc in H; discriminate).
      eauto.
    - intros (i & seg & Hseg & Hland). eexists.
      exact (write_segment_lands _ _ _ _ _ Hseg Hland). }
  split.
  - intros bytes. rewrite patch_address_body. apply Hw.
  - intros value size Hsize. rewrite patch_address_value_body.
    unfold sizeof_uint64. destruct (8 <? size) eqn:Hsz.
    + apply Z.ltb_lt in Hsz. split; [intros [b' H]; discriminate|].
      intros [Hle _]. lia.
    + apply Z.ltb_ge in Hsz. rewrite Hw, object_bytes_length.
      rewrite Z2Nat.id by lia.
      assert (Hnil : object_bytes value size = [] <-> size = 0).
      { split.
        - intros E. apply (f_equal (@length Z)) in E.
          rewrite object_bytes_length in E. simpl in E. lia.
        - now intros ->. }
      split.
      * intros (i & seg & Hseg & Hland). split; [exact Hsz|].
        exists i, seg. split; [exact Hseg|]. rewrite <- Hnil. exact Hland.
      * intros (_ & i & seg & Hseg & Hland).
        exists i, seg. split; [exact Hseg|]. rewrite Hnil. exact Hland.
Qed.

(** X22. [get_content_from_virtual_address] returns bytes exactly when a segment
    covers the address, the local offset is not past the end of that
    segment's buffer, and [offset + size] does not wrap around 64 bits (or
    the whole range lies in the buffer).  An address in the part of a
    segment that no buffer backs never yields bytes. *)
Theorem get_content_returns_iff (a size : Z) (b : Binary) :
  0 <= size < 2 ^ 64 ->
  (exists bytes, get_content_from_virtual_address a size b = Ok bytes) <->
  exists i seg,
    segment_from_virtual_address a b = Ok (i, seg) /\
    sub64 a (SegmentCommand.virtual_address seg)
      <= Z.of_nat (length (SegmentCommand.content seg)) /\
    (sub64 a (SegmentCommand.virtual_address seg) + size < 2 ^ 64 \/
     sub64 a (SegmentCommand.virtual_address seg) + size
       <= Z.of_nat (length (SegmentCommand.content seg))).
Proof.
  intros Hsize. split.
  - intros [bytes H].
    destruct (get_content_Ok_inv _ _ _ _ Hsize H)
      as (i & seg & Hseg & HoffL & _ & _).
    exists i, seg. split; [exact Hseg|]. split; [exact HoffL|].
    pose proof (sub64_range a (SegmentCommand.virtual_address seg)) as Hoff.
    destruct (Z_lt_ge_dec
                (sub64 a (SegmentCommand.virtual_address seg) + size)
                (2 ^ 64)) as [Hnw|Hw]; [now left|right].
    unfold get_content_from_virtual_address in H. rewrite Hseg in H.
    cbv zeta in H. unfold add64 in H.
    rewrite wrap64_once_down in H by lia.
    destruct (_ <? _) eqn:Hover in H.
    + apply Z.ltb_lt in Hover. lia.
    + unfold vector_from_range in H.
      destruct (_ && _) eqn:Hin in H; [|discriminate].
      apply andb_true_iff in Hin as [_ Hhi]. now apply Z.leb_le in Hhi.
  - intros (i & seg & Hseg & HoffL & [Hnw|Hfit]); eexists.
    + now apply (get_content_inside a size b i seg).
    + now apply (get_content_fits a size b i seg).
Qed.

Lemma get_content_returns_iff_witness :
  ~ exists bytes,
      get_content_from_virtual_address 0x100002020 4 sample = Ok bytes.
Proof.
  intros H.
  apply (proj1 (get_content_returns_iff 0x100002020 4 sample ltac:(lia)))
    in H as (i & seg & Hseg & Hoff & _).
  vm_compute in Hseg. injection Hseg as <- <-.
  vm_compute in Hoff. now apply Hoff.
Defined.

(** X23. The empty patch: at every covered address, also one that no buffer
    backs, [patch_address(address, {})] and
    [patch_address(address, value, 0)] succeed and leave the binary exactly
    as it was. *)
Theorem patch_address_empty (a : Z) (b : Binary) (i : nat)
    (seg : SegmentCommand.t) :
  segment_from_virtual_address a b = Ok (i, seg) ->
  patch_address a [] b = (Ok tt, b) /\
  (forall value, patch_address_value a value 0 b = (Ok tt, b)).
Proof.
  intros Hseg.
  destruct (segment_from_virtual_address_Ok _ _ _ _ Hseg) as [Hi _].
  assert (H : write_segment a [] b = (Ok tt, b)).
  { rewrite (write_segment_lands _ _ _ _ _ Hseg (or_introl eq_refl)).
    rewrite overwrite_nil.
    replace (SegmentCommand.set_content seg (SegmentCommand.content seg))
      with seg by now destruct seg.
    rewrite (list_insert_id _ _ _ Hi). now destruct b. }
  split; [now rewrite patch_address_body|].
  intros value. rewrite patch_address_value_body. exact H.
Qed.

Lemma patch_address_empty_witness :
  patch_address 0x100002020 [] sample = (Ok tt, sample) /\
  patch_address_value 0x10 0xAABB 0 sample = (Ok tt, sample).
Proof.
  split.
  - apply (proj1 (patch_address_empty 0x100002020 sample 3%nat data_segment
                    eq_refl)).
  - apply (proj2 (patch_address_empty 0x10 sample 0%nat pagezero eq_refl)).
Defined.
